(** * Img2Latex: random augmentation of equation images (data_augment.py)

    A shallow embedding of [data_augment.py] and the properties of its
    transforms.  The module works on numpy arrays of shape (H, W, C); the
    arrays that occur are 8-bit unsigned canvases and the float64 arrays
    that the colour conversion produces.  Python floats and float64 cells
    are IEEE binary64 numbers, here the primitive floats of Rocq.

    The image primitives of scipy/skimage and the random source of numpy
    are collaborators of the module: they are an interface here
    ([Collaborators]), with the part of their contract that the module
    relies on ([CollaboratorsOk]).  An executable instance ([Sim]) at the
    end is used to run the functions on concrete canvases. *)

From Stdlib Require Import ZArith List Bool Lia PrimFloat Uint63.
Import ListNotations.

Set Warnings "-inexact-float".
Local Open Scope Z_scope.

(** ** Exceptions and results *)

Inductive exn : Type :=
| IndexError          (* indexing an empty array, a missing channel, a mask of another shape *)
| ZeroDivisionError   (* Python float division by 0.0 *)
| ValueError.         (* a collaborator rejects its input; negative pad width *)

Inductive result (A : Type) : Type :=
| Ok (a : A)
| Raise (e : exn).
Arguments Ok {A} a.
Arguments Raise {A} e.

Definition rbind {A B} (r : result A) (k : A -> result B) : result B :=
  match r with
  | Ok a => k a
  | Raise e => Raise e
  end.

(** ** Arrays of shape (H, W, C)

    The shape is kept next to the cells, as numpy does: an array with no
    rows still has a width.  [cells] is row-major: rows, then columns, then
    channels. *)

Definition grid (A : Type) : Type := list (list (list A)).

Record array (A : Type) : Type := mkArray {
  nrows : nat;
  ncols : nat;
  nchan : nat;
  cells : grid A
}.
Arguments mkArray {A} _ _ _ _.
Arguments nrows {A} _.
Arguments ncols {A} _.
Arguments nchan {A} _.
Arguments cells {A} _.

(** The cells agree with the shape. *)
Definition wf_grid {A} (h w c : nat) (g : grid A) : Prop :=
  length g = h /\
  Forall (fun row => length row = w /\ Forall (fun px => length px = c) row) g.

Definition wf {A} (a : array A) : Prop :=
  wf_grid (nrows a) (ncols a) (nchan a) (cells a).

Definition same_shape {A B} (a : array A) (b : array B) : Prop :=
  nrows b = nrows a /\ ncols b = ncols a /\ nchan b = nchan a.

Definition shape_eqb {A B} (a : array A) (b : array B) : bool :=
  (Nat.eqb (nrows a) (nrows b) && Nat.eqb (ncols a) (ncols b)
   && Nat.eqb (nchan a) (nchan b))%bool.

Definition amap {A B} (f : A -> B) (a : array A) : array B :=
  mkArray (nrows a) (ncols a) (nchan a) (map (map (map f)) (cells a)).

(** [a[i, j, k]] *)
Definition aget {A} (a : array A) (i j k : nat) : option A :=
  match nth_error (cells a) i with
  | Some row =>
      match nth_error row j with
      | Some px => nth_error px k
      | None => None
      end
  | None => None
  end.

(** All cells, in index order. *)
Definition elements {A} (a : array A) : list A := concat (concat (cells a)).

(** A numpy array is an array with an element type. *)
Inductive ndarray : Type :=
| U8 (a : array Z)        (* dtype uint8: cells in 0..255 *)
| F64 (a : array float).  (* dtype float64 *)

Inductive dtype : Type := UInt8 | Float64.

Definition dtype_of (img : ndarray) : dtype :=
  match img with U8 _ => UInt8 | F64 _ => Float64 end.

Definition height (img : ndarray) : nat :=
  match img with U8 a => nrows a | F64 a => nrows a end.
Definition width (img : ndarray) : nat :=
  match img with U8 a => ncols a | F64 a => ncols a end.
Definition channels (img : ndarray) : nat :=
  match img with U8 a => nchan a | F64 a => nchan a end.

Definition in_u8 (v : Z) : Prop := 0 <= v < 256.

(** A canvas of the data model: an H x W x 3 array of 8-bit values. *)
Definition wf_u8 (a : array Z) : Prop :=
  wf a /\ Forall in_u8 (elements a).

Definition wf_ndarray (img : ndarray) : Prop :=
  match img with U8 a => wf_u8 a | F64 a => wf a end.

Definition canvas (img : ndarray) : Prop :=
  match img with U8 a => wf_u8 a /\ nchan a = 3%nat | F64 _ => False end.

(** ** Python and numpy scalars *)

(** [float(z)] for an int [z] (exact below 2^53, rounded below 2^63). *)
Definition py_float (z : Z) : float :=
  if z <? 0 then PrimFloat.opp (PrimFloat.of_uint63 (Uint63.of_Z (- z)))
  else PrimFloat.of_uint63 (Uint63.of_Z z).

(** [a / b] on Python floats. *)
Definition py_float_div (a b : float) : result float :=
  if PrimFloat.eqb b 0%float then Raise ZeroDivisionError
  else Ok (PrimFloat.div a b).

(** [min(a, b, c)]: the first of the smallest, by [<]. *)
Definition py_min3 (a b c : float) : float :=
  let m := if PrimFloat.ltb b a then b else a in
  if PrimFloat.ltb c m then c else m.

(** [a[0]] and [a[-1]] of a one-dimensional array. *)
Definition first_item {A} (l : list A) : result A :=
  match l with
  | [] => Raise IndexError
  | x :: _ => Ok x
  end.

Definition last_item {A} (l : list A) : result A :=
  match rev l with
  | [] => Raise IndexError
  | x :: _ => Ok x
  end.

(** [np.where(flags)[0]]: the indices of the true entries, ascending. *)
Fixpoint np_where_from (i : Z) (flags : list bool) : list Z :=
  match flags with
  | [] => []
  | b :: rest =>
      if b then i :: np_where_from (i + 1) rest
      else np_where_from (i + 1) rest
  end.

Definition np_where (flags : list bool) : list Z := np_where_from 0 flags.

(** Python's [l[lo:hi]] on a sequence of length [n]: a negative index counts
    from the end, and both ends are clamped to [0, n]. *)
Definition slice_index (n : nat) (i : Z) : nat :=
  Z.to_nat (Z.min (Z.max (if i <? 0 then i + Z.of_nat n else i) 0) (Z.of_nat n)).

Definition slice_len (n : nat) (lo hi : Z) : nat :=
  (slice_index n hi - slice_index n lo)%nat.

Definition py_slice {A} (lo hi : Z) (l : list A) : list A :=
  firstn (slice_len (length l) lo hi) (skipn (slice_index (length l) lo) l).

(** [a[y0:y1, x0:x1, :]] *)
Definition crop {A} (a : array A) (y0 y1 x0 x1 : Z) : array A :=
  mkArray (slice_len (nrows a) y0 y1) (slice_len (ncols a) x0 x1) (nchan a)
          (map (py_slice x0 x1) (py_slice y0 y1 (cells a))).

(** [np.pad(a, ((up, down), (left, right), (0, 0)), 'constant')] with the
    constant [zero]. *)
Definition pad_row {A} (zero : A) (c left right : nat) (row : list (list A))
  : list (list A) :=
  repeat (repeat zero c) left ++ row ++ repeat (repeat zero c) right.

Definition pad_cells {A} (zero : A) (a : array A) (up down left right : nat)
  : array A :=
  let w := (left + ncols a + right)%nat in
  let blank := repeat (repeat zero (nchan a)) w in
  mkArray (up + nrows a + down) w (nchan a)
          (repeat blank up
           ++ map (pad_row zero (nchan a) left right) (cells a)
           ++ repeat blank down).

(** numpy rejects a negative pad width. *)
Definition np_pad {A} (zero : A) (a : array A) (up down left right : Z)
  : result (array A) :=
  if ((up <? 0) || (down <? 0) || (left <? 0) || (right <? 0))%bool
  then Raise ValueError
  else Ok (pad_cells zero a (Z.to_nat up) (Z.to_nat down)
                     (Z.to_nat left) (Z.to_nat right)).

(** [a[:, :, k] = v] *)
Fixpoint set_nth {A} (k : nat) (v : A) (l : list A) : list A :=
  match l, k with
  | [], _ => []
  | _ :: t, O => v :: t
  | x :: t, S k' => x :: set_nth k' v t
  end.

Definition set_channel {A} (k : nat) (v : A) (a : array A) : result (array A) :=
  if (k <? nchan a)%nat
  then Ok (mkArray (nrows a) (ncols a) (nchan a)
                   (map (map (set_nth k v)) (cells a)))
  else Raise IndexError.

(** [a[mask] = v] for a boolean mask, which must have the shape of [a]. *)
Fixpoint zipw {A B C} (f : A -> B -> C) (l : list A) (m : list B) : list C :=
  match l, m with
  | x :: l', y :: m' => f x y :: zipw f l' m'
  | _, _ => []
  end.

Definition mask_assign {A} (mask : array bool) (a : array A) (v : A)
  : result (array A) :=
  if shape_eqb mask a
  then Ok (mkArray (nrows a) (ncols a) (nchan a)
                   (zipw (zipw (zipw (fun (m : bool) x => if m then v else x)))
                         (cells mask) (cells a)))
  else Raise IndexError.

(** The sum of 8-bit cells is accumulated in an unsigned 64-bit integer. *)
Definition sum_u64 (l : list Z) : Z := fold_left Z.add l 0 mod 2 ^ 64.

(** The cells of each row, [a[i, :, :]], and of each column, [a[:, j, :]]. *)
Definition row_cells {A} (a : array A) : list (list A) :=
  map (@concat A) (cells a).

Definition col_cells {A} (a : array A) : list (list A) :=
  map (fun j => concat (map (fun row => nth j row []) (cells a)))
      (seq 0 (ncols a)).

(** ** gray2rgb *)

(** A two-dimensional array, of shape (H, W): a gray image. *)
Record array2 (A : Type) : Type := mkArray2 {
  nrows2 : nat;
  ncols2 : nat;
  cells2 : list (list A)
}.
Arguments mkArray2 {A} _ _ _.
Arguments nrows2 {A} _.
Arguments ncols2 {A} _.
Arguments cells2 {A} _.

Definition wf2 {A} (a : array2 A) : Prop :=
  length (cells2 a) = nrows2 a
  /\ Forall (fun row => length row = ncols2 a) (cells2 a).

(** [a[i, j]] *)
Definition aget2 {A} (a : array2 A) (i j : nat) : option A :=
  match nth_error (cells2 a) i with
  | Some row => nth_error row j
  | None => None
  end.

(** [np.reshape(img, (imh, imw, 1))] for [imh, imw = img.shape]: the same
    cells in the same order, each one a pixel of one channel. *)
Definition reshape_hw1 {A} (img : array2 A) : array A :=
  let imh := nrows2 img in
  let imw := ncols2 img in
  mkArray imh imw 1 (map (map (fun v => [v])) (cells2 img)).

(** [np.concatenate((a, b, c), axis = 2)]: the arrays must agree on the
    other two axes. *)
Definition concatenate_axis2 {A} (a b c : array A) : result (array A) :=
  if (Nat.eqb (nrows a) (nrows b) && Nat.eqb (ncols a) (ncols b)
      && Nat.eqb (nrows a) (nrows c) && Nat.eqb (ncols a) (ncols c))%bool
  then Ok (mkArray (nrows a) (ncols a) (nchan a + nchan b + nchan c)
             (zipw (zipw (fun pq r => pq ++ r))
                   (zipw (zipw (fun p q => p ++ q)) (cells a) (cells b))
                   (cells c)))
  else Raise ValueError.

Definition gray2rgb {A} (img : array2 A) : result (array A) :=
  let img := reshape_hw1 img in
  concatenate_axis2 img img img.

(** ** invert_img *)

(** [255 - img]: on uint8 the subtraction is in 8 bits. *)
Definition invert_img (img : ndarray) : ndarray :=
  match img with
  | U8 a => U8 (amap (fun v => (255 - v) mod 256) a)
  | F64 a => F64 (amap (fun v => PrimFloat.sub 255%float v) a)
  end.

(** ** The two cleanup assignments of random_transform *)

(** [img[img > 200] = 255] *)
Definition snap_above_200 (img : ndarray) : ndarray :=
  match img with
  | U8 a => U8 (amap (fun v => if 200 <? v then 255 else v) a)
  | F64 a => F64 (amap (fun v => if PrimFloat.ltb 200%float v then 255%float else v) a)
  end.

(** [img[img < 55] = 0] *)
Definition snap_below_55 (img : ndarray) : ndarray :=
  match img with
  | U8 a => U8 (amap (fun v => if v <? 55 then 0 else v) a)
  | F64 a => F64 (amap (fun v => if PrimFloat.ltb v 55%float then 0%float else v) a)
  end.

(** Every cell of [img] satisfies [PZ] (uint8) or [PF] (float64). *)
Definition all_cells (PZ : Z -> Prop) (PF : float -> Prop) (img : ndarray) : Prop :=
  match img with
  | U8 a => Forall PZ (elements a)
  | F64 a => Forall PF (elements a)
  end.

(** No cell lies strictly between [lo] and [hi]. *)
Definition none_strictly_between (lo hi : Z) (img : ndarray) : Prop :=
  all_cells (fun v => ~ (lo < v < hi))
            (fun v => ~ (PrimFloat.ltb (py_float lo) v = true
                         /\ PrimFloat.ltb v (py_float hi) = true))
            img.

(** [out] has the shape and the element type of [src], and each of its
    cells is [fz] (uint8, for a cell in 0..255) or [ff] (float64) of the
    cell of [src] at the same place. *)
Definition cellwise (fz : Z -> Z) (ff : float -> float) (src out : ndarray)
  : Prop :=
  match src, out with
  | U8 a, U8 o =>
      same_shape a o
      /\ forall i j k v, aget a i j k = Some v -> in_u8 v ->
           aget o i j k = Some (fz v)
  | F64 a, F64 o =>
      same_shape a o
      /\ forall i j k v, aget a i j k = Some v ->
           aget o i j k = Some (ff v)
  | _, _ => False
  end.

(** ** Collaborators *)

(** The second argument of [scipy.misc.imresize]: a fraction of the size,
    or the size of the output. *)
Inductive size_arg : Type :=
| Fraction (f : float)
| ToShape (h w : nat).

Class Collaborators : Type := {
  (** state of numpy's global random source *)
  rng : Type;
  (** [np.random.uniform(low, high)] *)
  uniform : float -> float -> rng -> float * rng;
  (** [np.random.randn(1)] *)
  randn : rng -> float * rng;
  (** [scipy.misc.imresize(img, size, interp='bicubic')]; the result is
      always an 8-bit image *)
  imresize : ndarray -> size_arg -> result (array Z);
  (** [scipy.ndimage.interpolation.rotate(img, angle)] *)
  ndimage_rotate : ndarray -> float -> result ndarray;
  (** [skimage.color.rgb2hsv] and [hsv2rgb] *)
  rgb2hsv : array Z -> result (array float);
  hsv2rgb : array float -> result (array float);
  (** the conversion of one float64 cell by [astype(np.uint8)] *)
  cast_u8 : float -> Z;
  (** numpy's reduction of float64 cells by [+] (its order of summation is
      numpy's own) *)
  sum_f64 : list float -> float
}.

(** What the module relies on from its collaborators. *)
Class CollaboratorsOk (C : Collaborators) : Prop := {
  (** a draw from [0, 1) is not below 0 and is below 1 *)
  uniform01_range :
    forall s, PrimFloat.ltb (fst (uniform 0%float 1%float s)) 0%float = false
              /\ PrimFloat.ltb (fst (uniform 0%float 1%float s)) 1%float = true;
  imresize_wf :
    forall img sz out, imresize img sz = Ok out -> wf_u8 out;
  imresize_to_shape :
    forall img h w out, imresize img (ToShape h w) = Ok out ->
      nrows out = h /\ ncols out = w;
  rgb2hsv_shape :
    forall a out, rgb2hsv a = Ok out -> same_shape a out;
  hsv2rgb_shape :
    forall a out, hsv2rgb a = Ok out -> same_shape a out;
  hsv2rgb_wf :
    forall a out, hsv2rgb a = Ok out -> wf out
}.

(** ** The functions of the module *)

Section DataAugment.
Context {C : Collaborators}.

(** A computation that reads the random source and may raise. *)
Definition M (A : Type) : Type := rng -> result (A * rng).

Definition ret {A} (a : A) : M A := fun s => Ok (a, s).

Definition bind {A B} (m : M A) (k : A -> M B) : M B :=
  fun s =>
    match m s with
    | Ok (a, s') => k a s'
    | Raise e => Raise e
    end.

Definition lift {A} (r : result A) : M A :=
  fun s =>
    match r with
    | Ok a => Ok (a, s)
    | Raise e => Raise e
    end.

Definition draw (f : rng -> float * rng) : M float := fun s => Ok (f s).

Notation "x <- m ;; k" := (bind m (fun x => k))
  (at level 61, m at next level, right associativity).

(** [np.sum(img, axis=(1,2)) != 0] and [np.sum(img, axis=(0,2)) != 0] *)
Definition row_sum_ne0 (img : ndarray) : list bool :=
  match img with
  | U8 a => map (fun l => negb (sum_u64 l =? 0)) (row_cells a)
  | F64 a => map (fun l => negb (PrimFloat.eqb (sum_f64 l) 0%float)) (row_cells a)
  end.

Definition col_sum_ne0 (img : ndarray) : list bool :=
  match img with
  | U8 a => map (fun l => negb (sum_u64 l =? 0)) (col_cells a)
  | F64 a => map (fun l => negb (PrimFloat.eqb (sum_f64 l) 0%float)) (col_cells a)
  end.

(** The rows and the columns that hold content: [np.where(sum != 0)[0]]. *)
Definition content_rows (img : ndarray) : list Z := np_where (row_sum_ne0 img).
Definition content_cols (img : ndarray) : list Z := np_where (col_sum_ne0 img).

(** *** random_scale *)

(** [int(d / 2)]: true division, then truncation. *)
Definition pad_before (deficit : Z) : Z := Z.quot deficit 2.
Definition pad_after (deficit : Z) : Z := deficit - pad_before deficit.

(** The test of line 74. *)
Definition too_large (imh imw min_pad y_min y_max x_min x_max : Z) : bool :=
  ((imh <? (y_max - y_min) + 2 * min_pad)
   || (imw <? (x_max - x_min) + 2 * min_pad))%bool.

(** Lines 64-72: the first and last row and column that hold content,
    [(y_min, y_max, x_min, x_max)]. *)
Definition content_extent (img : ndarray) : result (Z * Z * Z * Z) :=
  let col_sum := content_cols img in
  let row_sum := content_rows img in
  rbind (first_item row_sum) (fun y_min =>
  rbind (last_item row_sum) (fun y_max =>
  rbind (first_item col_sum) (fun x_min =>
  rbind (last_item col_sum) (fun x_max =>
  Ok (y_min, y_max, x_min, x_max))))).

(** Lines 77-85: the extent widened by [min_pad] and clamped. *)
Definition clip_extent (imh imw min_pad : Z) (e : Z * Z * Z * Z)
  : Z * Z * Z * Z :=
  let '(y_min, y_max, x_min, x_max) := e in
  let y_min := y_min - min_pad in
  let y_max := y_max + min_pad in
  let x_min := x_min - min_pad in
  let x_max := x_max + min_pad in
  let y_min := Z.max y_min 0 in
  let x_min := Z.max x_min 0 in
  let y_max := Z.min y_max (imh - 1) in
  let x_max := Z.min x_max (imw - 1) in
  (y_min, y_max, x_min, x_max).

(** Line 87: [img_scale[y_min:y_max, x_min:x_max, :]]. *)
Definition crop_extent (img_scale : array Z) (e : Z * Z * Z * Z) : array Z :=
  let '(y_min, y_max, x_min, x_max) := e in
  crop img_scale y_min y_max x_min x_max.

(** Lines 89-97: pad the crop with zeros to [imh] x [imw]. *)
Definition repad (imh imw : Z) (img_scale : array Z) : result (array Z) :=
  let pad_size_up := pad_before (imh - Z.of_nat (nrows img_scale)) in
  let pad_size_down := pad_after (imh - Z.of_nat (nrows img_scale)) in
  let pad_size_left := pad_before (imw - Z.of_nat (ncols img_scale)) in
  let pad_size_right := pad_after (imw - Z.of_nat (ncols img_scale)) in
  np_pad 0 img_scale pad_size_up pad_size_down pad_size_left pad_size_right.

(** Lines 64-99: from the resampled image back to the size of [img]. *)
Definition recrop (img : ndarray) (img_scale : array Z) (min_pad : Z)
  : result ndarray :=
  let imh := Z.of_nat (height img) in
  let imw := Z.of_nat (width img) in
  rbind (content_extent (U8 img_scale)) (fun e =>
  let '(y_min, y_max, x_min, x_max) := e in
  if too_large imh imw min_pad y_min y_max x_min x_max then Ok img
  else
    let img_scale := crop_extent img_scale (clip_extent imh imw min_pad e) in
    rbind (repad imh imw img_scale) (fun img_scale => Ok (U8 img_scale))).

(** Lines 42-58: the scale factor, capped by the room the content has, and
    the resampled image. *)
Definition scale_and_resample (img : ndarray) (min_scale max_scale : float)
  : M (array Z) :=
  let imh := Z.of_nat (height img) in
  let imw := Z.of_nat (width img) in
  let eqh := content_rows img in
  eqh_last <- lift (last_item eqh) ;;
  eqh_first <- lift (first_item eqh) ;;
  let eqh := eqh_last - eqh_first in
  let eqw := content_cols img in
  eqw_last <- lift (last_item eqw) ;;
  eqw_first <- lift (first_item eqw) ;;
  let eqw := eqw_last - eqw_first in
  by_h <- lift (py_float_div (py_float imh) (py_float eqh)) ;;
  by_w <- lift (py_float_div (py_float imw) (py_float eqw)) ;;
  let max_scale := py_min3 by_h by_w max_scale in
  scale_factor <- draw (uniform min_scale max_scale) ;;
  lift (imresize img (Fraction scale_factor)).

Definition random_scale (img : ndarray) (min_scale max_scale : float)
    (min_pad : Z) : M ndarray :=
  img_scale <- scale_and_resample img min_scale max_scale ;;
  lift (recrop img img_scale min_pad).

(** *** random_hue *)

(** [np.sum(img == z)] *)
Definition cell_is (z : Z) (img : ndarray) : array bool :=
  match img with
  | U8 a => amap (fun v => v =? z) a
  | F64 a => amap (fun v => PrimFloat.eqb v (py_float z)) a
  end.

Definition count_true (mask : array bool) : Z :=
  Z.of_nat (length (filter (fun b : bool => b) (elements mask))).

(** [img.astype(np.uint8)] *)
Definition astype_u8 (img : ndarray) : array Z :=
  match img with
  | U8 a => a
  | F64 a => amap cast_u8 a
  end.

(** The background value: 0 when the zeros outnumber the 255s, else 255. *)
Definition bg_value_of (img : ndarray) : Z :=
  let num_zero := count_true (cell_is 0 img) in
  let num_255 := count_true (cell_is 255 img) in
  if num_255 <? num_zero then 0 else 255.

Definition random_hue (img : ndarray) : M ndarray :=
  let bg_value := bg_value_of img in
  let bg_pixel_ind := cell_is bg_value img in
  let img_rgb := astype_u8 img in
  img_hsv <- lift (rgb2hsv img_rgb) ;;
  hue <- draw (uniform 0 1) ;;
  sat <- draw (uniform 0 1) ;;
  val <- draw (uniform 0 0.7) ;;
  val <- (if bg_value =? 0 then draw (uniform 0.3 1) else ret val) ;;
  img_hsv <- lift (set_channel 0 hue img_hsv) ;;
  img_hsv <- lift (set_channel 1 sat img_hsv) ;;
  img_hsv <- lift (set_channel 2 val img_hsv) ;;
  let img_hsv := amap (fun v => if PrimFloat.ltb 1 v then 1%float else v) img_hsv in
  let img_hsv := amap (fun v => if PrimFloat.ltb v 0 then 0%float else v) img_hsv in
  img_rgb <- lift (hsv2rgb img_hsv) ;;
  img_rgb <- lift (mask_assign bg_pixel_ind img_rgb (py_float bg_value)) ;;
  ret (F64 (amap (fun v => PrimFloat.mul v 255) img_rgb)).

(** *** random_rotate *)

Definition random_rotate (img : ndarray) (angle_std : float) : M ndarray :=
  let imh := height img in
  let imw := width img in
  z <- draw randn ;;
  let angle := PrimFloat.mul angle_std z in
  img <- lift (ndimage_rotate img angle) ;;
  img <- lift (imresize img (ToShape imh imw)) ;;
  ret (U8 img).

(** *** random_transform *)

(** Lines 175-191: the scale, hue and rotate gates. *)
Definition gated_stages (img : ndarray) (scale min_scale max_scale hue rotate
    angle_std : float) : M ndarray :=
  let img_trf := img in
  dice <- draw (uniform 0 1) ;;
  img_trf <- (if PrimFloat.ltb dice scale
              then random_scale img_trf min_scale max_scale 0
              else ret img_trf) ;;
  dice <- draw (uniform 0 1) ;;
  img_trf <- (if PrimFloat.ltb dice hue then random_hue img_trf
              else ret img_trf) ;;
  dice <- draw (uniform 0 1) ;;
  img_trf <- (if PrimFloat.ltb dice rotate then random_rotate img_trf angle_std
              else ret img_trf) ;;
  ret img_trf.

(** Lines 193-200: invert and snap, or snap only. *)
Definition invert_or_clean (img_trf : ndarray) (invert : float) : M ndarray :=
  dice <- draw (uniform 0 1) ;;
  if PrimFloat.ltb dice invert
  then ret (snap_above_200 (invert_img img_trf))
  else ret (snap_below_55 img_trf).

Definition random_transform (img : ndarray) (original invert scale min_scale
    max_scale hue rotate angle_std : float) : M ndarray :=
  dice <- draw (uniform 0 1) ;;
  if PrimFloat.ltb dice original then ret (U8 (astype_u8 img))
  else
    img_trf <- gated_stages img scale min_scale max_scale hue rotate angle_std ;;
    invert_or_clean img_trf invert.

End DataAugment.

(** ** An executable instance of the collaborators

    Small, deterministic stand-ins used to run the module on concrete
    canvases: a random source that reads a tape, nearest-neighbour
    resampling, rotation by zero degrees only, and the textbook colour
    conversions. *)

Module Sim.

(** [build h w c f] is the array with [f i j k] at [(i, j, k)]. *)
Definition build {A} (h w c : nat) (f : nat -> nat -> nat -> A) : array A :=
  mkArray h w c
    (map (fun i => map (fun j => map (fun k => f i j k) (seq 0 c)) (seq 0 w))
         (seq 0 h)).

Definition cell {A} (d : A) (a : array A) (i j k : nat) : A :=
  match aget a i j k with
  | Some v => v
  | None => d
  end.

(** The tape holds bytes; a byte [b] stands for the number [b / 256]. *)
Definition tape : Type := list nat.

Definition unit_of (b : nat) : float :=
  PrimFloat.div (py_float (Z.of_nat (b mod 256))) 256.

Definition next (s : tape) : nat * tape :=
  match s with
  | [] => (O, [])
  | b :: s' => (b, s')
  end.

Definition uniform (low high : float) (s : tape) : float * tape :=
  let (b, s') := next s in
  (PrimFloat.add low (PrimFloat.mul (PrimFloat.sub high low) (unit_of b)), s').

(** A deviate in [-2, 2). *)
Definition randn (s : tape) : float * tape :=
  let (b, s') := next s in
  (PrimFloat.mul 4 (PrimFloat.sub (unit_of b) 0.5), s').

(** Truncation of a float in [0, 4096) to an integer, bit by bit. *)
Definition trunc (x : float) : Z :=
  fold_left (fun acc bit =>
               if PrimFloat.leb (py_float (acc + bit)) x then acc + bit else acc)
            [2048; 1024; 512; 256; 128; 64; 32; 16; 8; 4; 2; 1] 0.

Definition cast_u8 (x : float) : Z := trunc x mod 256.

Definition as_u8 (img : ndarray) : array Z :=
  match img with
  | U8 a => amap (fun v => v mod 256) a
  | F64 a => amap cast_u8 a
  end.

(** Nearest-neighbour resampling to [h] x [w]. *)
Definition nearest (a : array Z) (h w : nat) : array Z :=
  build h w (nchan a)
    (fun i j k => cell 0 a (i * nrows a / h) (j * ncols a / w) k mod 256).

Definition imresize (img : ndarray) (size : size_arg) : result (array Z) :=
  match size with
  | Fraction f =>
      let h := Z.to_nat (trunc (PrimFloat.mul (py_float (Z.of_nat (height img))) f)) in
      let w := Z.to_nat (trunc (PrimFloat.mul (py_float (Z.of_nat (width img))) f)) in
      if (Nat.eqb h 0 || Nat.eqb w 0)%bool then Raise ValueError
      else Ok (nearest (as_u8 img) h w)
  | ToShape h w => Ok (nearest (as_u8 img) h w)
  end.

Definition ndimage_rotate (img : ndarray) (angle : float) : result ndarray :=
  if PrimFloat.eqb angle 0 then Ok img else Raise ValueError.

Definition max3 (a b c : float) : float :=
  let m := if PrimFloat.ltb a b then b else a in
  if PrimFloat.ltb m c then c else m.

Definition min3 (a b c : float) : float :=
  let m := if PrimFloat.ltb b a then b else a in
  if PrimFloat.ltb c m then c else m.

(** One pixel from red, green, blue in 0..255 to hue, saturation, value. *)
Definition hsv_of_rgb (r g b : Z) : float * float * float :=
  let r := PrimFloat.div (py_float r) 255 in
  let g := PrimFloat.div (py_float g) 255 in
  let b := PrimFloat.div (py_float b) 255 in
  let v := max3 r g b in
  let delta := PrimFloat.sub v (min3 r g b) in
  if PrimFloat.eqb delta 0 then (0%float, 0%float, v)
  else
    let s := PrimFloat.div delta v in
    let h6 :=
      if PrimFloat.eqb r v then PrimFloat.div (PrimFloat.sub g b) delta
      else if PrimFloat.eqb g v
           then PrimFloat.add 2 (PrimFloat.div (PrimFloat.sub b r) delta)
           else PrimFloat.add 4 (PrimFloat.div (PrimFloat.sub r g) delta) in
    let h := PrimFloat.div h6 6 in
    (if PrimFloat.ltb h 0 then PrimFloat.add h 1 else h, s, v).

(** One pixel from hue, saturation, value to red, green, blue in [0, 1]. *)
Definition rgb_of_hsv (h s v : float) : float * float * float :=
  let h6 := PrimFloat.mul h 6 in
  let hi := length (filter (fun n => PrimFloat.leb (py_float (Z.of_nat n)) h6)
                           (seq 1 6)) in
  let f := PrimFloat.sub h6 (py_float (Z.of_nat hi)) in
  let p := PrimFloat.mul v (PrimFloat.sub 1 s) in
  let q := PrimFloat.mul v (PrimFloat.sub 1 (PrimFloat.mul f s)) in
  let t := PrimFloat.mul v (PrimFloat.sub 1 (PrimFloat.mul (PrimFloat.sub 1 f) s)) in
  match (hi mod 6)%nat with
  | 0%nat => (v, t, p)
  | 1%nat => (q, v, p)
  | 2%nat => (p, v, t)
  | 3%nat => (p, q, v)
  | 4%nat => (t, p, v)
  | _ => (v, p, q)
  end.

Definition pick {A} (t : A * A * A) (k : nat) : A :=
  let '(x, y, z) := t in
  match k with
  | 0%nat => x
  | 1%nat => y
  | _ => z
  end.

Definition rgb2hsv (a : array Z) : result (array float) :=
  if Nat.eqb (nchan a) 3
  then Ok (build (nrows a) (ncols a) 3
             (fun i j k =>
                pick (hsv_of_rgb (cell 0 a i j 0) (cell 0 a i j 1) (cell 0 a i j 2)) k))
  else Raise ValueError.

Definition hsv2rgb (a : array float) : result (array float) :=
  if Nat.eqb (nchan a) 3
  then Ok (build (nrows a) (ncols a) 3
             (fun i j k =>
                pick (rgb_of_hsv (cell 0%float a i j 0) (cell 0%float a i j 1)
                                 (cell 0%float a i j 2)) k))
  else Raise ValueError.

Definition sum_f64 (l : list float) : float := fold_left PrimFloat.add l 0%float.

#[export] Instance collaborators : Collaborators := {
  rng := tape;
  uniform := Sim.uniform;
  randn := Sim.randn;
  imresize := Sim.imresize;
  ndimage_rotate := Sim.ndimage_rotate;
  rgb2hsv := Sim.rgb2hsv;
  hsv2rgb := Sim.hsv2rgb;
  cast_u8 := Sim.cast_u8;
  sum_f64 := Sim.sum_f64
}.

(** Canvases used in the examples. *)

(** An [h] x [w] canvas that is [fg] on the rows [y0..y1] and the columns
    [x0..x1] and [bg] elsewhere. *)
Definition block (h w : nat) (bg fg : Z) (y0 y1 x0 x1 : nat) : array Z :=
  build h w 3
    (fun i j _ =>
       if ((y0 <=? i) && (i <=? y1) && (x0 <=? j) && (j <=? x1))%nat%bool
       then fg else bg).

(** A dark 6 x 6 canvas with a bright 2 x 2 block in the middle. *)
Definition dark_block : array Z := block 6 6 0 255 2 3 2 3.

(** A light 1 x 2 canvas: one black pixel, one white pixel. *)
Definition light_pair : array Z := block 1 2 255 0 0 0 0 0.

(** A dark 3 x 3 canvas with one bright pixel. *)
Definition one_pixel : array Z := block 3 3 0 255 1 1 1 1.

(** A 4 x 4 canvas that is content all over. *)
Definition full_block : array Z := block 4 4 0 255 0 3 0 3.

End Sim.

(** * Properties *)

(** ** Arrays *)

Lemma in_elements {A} (a : array A) (v : A) :
  In v (elements a) <->
  exists row px, In row (cells a) /\ In px row /\ In v px.
Proof.
  unfold elements. rewrite in_concat. split.
  - intros (px & Hpx & Hv). apply in_concat in Hpx.
    destruct Hpx as (row & Hrow & Hpx). eauto.
  - intros (row & px & Hrow & Hpx & Hv). exists px. split; [|assumption].
    apply in_concat. eauto.
Qed.

Lemma elements_amap {A B} (f : A -> B) (a : array A) :
  elements (amap f a) = map f (elements a).
Proof.
  unfold elements, amap. cbn [cells].
  now rewrite !concat_map.
Qed.

Lemma amap_ext_in {A B} (f g : A -> B) (a : array A) :
  (forall v, In v (elements a) -> f v = g v) -> amap f a = amap g a.
Proof.
  intros H. unfold amap. f_equal.
  apply map_ext_in. intros row Hrow.
  apply map_ext_in. intros px Hpx.
  apply map_ext_in. intros v Hv.
  apply H, in_elements. eauto.
Qed.

Lemma amap_amap {A B D} (f : A -> B) (g : B -> D) (a : array A) :
  amap g (amap f a) = amap (fun v => g (f v)) a.
Proof.
  unfold amap. cbn [nrows ncols nchan cells]. f_equal.
  rewrite map_map. apply map_ext. intros row.
  rewrite map_map. apply map_ext. intros px.
  now rewrite map_map.
Qed.

Lemma amap_id {A} (a : array A) : amap (fun v => v) a = a.
Proof.
  destruct a as [h w c g]. unfold amap. cbn [nrows ncols nchan cells]. f_equal.
  rewrite <- (map_id g) at 2. apply map_ext. intros row.
  rewrite <- (map_id row) at 2. apply map_ext. intros px.
  apply map_id.
Qed.

Lemma aget_amap {A B} (f : A -> B) (a : array A) (i j k : nat) :
  aget (amap f a) i j k = option_map f (aget a i j k).
Proof.
  unfold aget, amap. cbn [cells].
  rewrite nth_error_map. destruct (nth_error (cells a) i) as [row|]; [|reflexivity].
  cbn [option_map]. rewrite nth_error_map.
  destruct (nth_error row j) as [px|]; [|reflexivity].
  cbn [option_map]. apply nth_error_map.
Qed.

Lemma wf_amap {A B} (f : A -> B) (a : array A) : wf a -> wf (amap f a).
Proof.
  unfold wf, wf_grid, amap. cbn [nrows ncols nchan cells].
  intros [Hlen Hrows]. split; [now rewrite length_map|].
  apply Forall_map. eapply Forall_impl; [|exact Hrows].
  intros row [Hw Hpx]. split; [now rewrite length_map|].
  apply Forall_map. eapply Forall_impl; [|exact Hpx].
  intros px Hc. now rewrite length_map.
Qed.

(** Where a well-formed array has a cell. *)
Lemma aget_bounds {A} (a : array A) (i j k : nat) (v : A) :
  wf a -> aget a i j k = Some v ->
  (i < nrows a /\ j < ncols a /\ k < nchan a)%nat.
Proof.
  unfold wf, wf_grid, aget. intros [Hlen Hrows] H.
  destruct (nth_error (cells a) i) as [row|] eqn:Hi; [|discriminate].
  destruct (nth_error row j) as [px|] eqn:Hj; [|discriminate].
  rewrite Forall_forall in Hrows.
  destruct (Hrows row (nth_error_In _ _ Hi)) as [Hw Hpx].
  rewrite Forall_forall in Hpx.
  pose proof (Hpx px (nth_error_In _ _ Hj)) as Hc.
  assert (nth_error (cells a) i <> None) as Hi' by congruence.
  assert (nth_error row j <> None) as Hj' by congruence.
  assert (nth_error px k <> None) as Hk' by congruence.
  apply nth_error_Some in Hi', Hj', Hk'. lia.
Qed.

Lemma aget_defined {A} (a : array A) (i j k : nat) :
  wf a -> (i < nrows a)%nat -> (j < ncols a)%nat -> (k < nchan a)%nat ->
  exists v, aget a i j k = Some v.
Proof.
  unfold wf, wf_grid, aget. intros [Hlen Hrows] Hi Hj Hk.
  destruct (nth_error (cells a) i) as [row|] eqn:Ei.
  2:{ apply nth_error_None in Ei. lia. }
  rewrite Forall_forall in Hrows.
  destruct (Hrows row (nth_error_In _ _ Ei)) as [Hw Hpx].
  destruct (nth_error row j) as [px|] eqn:Ej.
  2:{ apply nth_error_None in Ej. lia. }
  rewrite Forall_forall in Hpx.
  pose proof (Hpx px (nth_error_In _ _ Ej)) as Hc.
  destruct (nth_error px k) as [v|] eqn:Ek; [eauto|].
  apply nth_error_None in Ek. lia.
Qed.

Lemma aget_in_elements {A} (a : array A) (i j k : nat) (v : A) :
  aget a i j k = Some v -> In v (elements a).
Proof.
  unfold aget. intros H.
  destruct (nth_error (cells a) i) as [row|] eqn:Hi; [|discriminate].
  destruct (nth_error row j) as [px|] eqn:Hj; [|discriminate].
  apply in_elements. exists row, px.
  repeat split; eapply nth_error_In; eassumption.
Qed.

(** ** The result and state monads *)

Lemma ok_inj {A} (a b : A) : Ok a = Ok b -> a = b.
Proof. congruence. Qed.

Lemma rbind_ok {A B} (r : result A) (k : A -> result B) (b : B) :
  rbind r k = Ok b -> exists a, r = Ok a /\ k a = Ok b.
Proof. destruct r; cbn; [eauto|discriminate]. Qed.

Section MonadFacts.
Context {C : Collaborators}.

Lemma bind_ok {A B} (m : M A) (k : A -> M B) s b s' :
  bind m k s = Ok (b, s') ->
  exists a s1, m s = Ok (a, s1) /\ k a s1 = Ok (b, s').
Proof.
  unfold bind. destruct (m s) as [[a s1]|e]; [eauto|discriminate].
Qed.

Lemma lift_ok {A} (r : result A) s a s' :
  lift r s = Ok (a, s') -> r = Ok a /\ s' = s.
Proof.
  unfold lift. destruct r; [|discriminate]. intros H. now inversion H.
Qed.

Lemma draw_ok (f : rng -> float * rng) s x s' :
  draw f s = Ok (x, s') -> f s = (x, s').
Proof. unfold draw. intros H. now inversion H. Qed.

Lemma ret_ok {A} (a : A) s b s' :
  ret a s = Ok (b, s') -> b = a /\ s' = s.
Proof. unfold ret. intros H. now inversion H. Qed.

End MonadFacts.

(** Take a successful run apart, one step at a time. *)
Ltac run_inv H :=
  match type of H with
  | bind _ _ _ = Ok _ =>
      let a := fresh "x" in
      let s := fresh "s" in
      let H1 := fresh "Hstep" in
      apply bind_ok in H; destruct H as (a & s & H1 & H);
      run_inv H1; run_inv H
  | lift _ _ = Ok _ =>
      let E := fresh "Es" in
      apply lift_ok in H; destruct H as [H E]; subst
  | ret _ _ = Ok _ =>
      let E := fresh "Es" in
      apply ret_ok in H; destruct H as [H E]; subst
  | draw _ _ = Ok _ => apply draw_ok in H
  | _ => idtac
  end.
(** ** invert_img *)

Lemma invert_img_shape (img : ndarray) :
  height (invert_img img) = height img
  /\ width (invert_img img) = width img
  /\ channels (invert_img img) = channels img
  /\ dtype_of (invert_img img) = dtype_of img.
Proof. destruct img; cbn; auto. Qed.

(** A boolean test for 8-bit cells. *)
Lemma in_u8_check (l : list Z) :
  forallb (fun v => (0 <=? v) && (v <? 256)) l = true -> Forall in_u8 l.
Proof.
  rewrite forallb_forall, Forall_forall. intros H v Hv.
  specialize (H v Hv). unfold in_u8. lia.
Qed.

(** C9. [invert_img] is a function (total and pure); on an 8-bit image its
    result is 255 minus the input, cell by cell, in the same shape and
    again 8-bit, and inverting twice gives the image back exactly. *)
Theorem invert_img_involutive (a : array Z) :
  Forall in_u8 (elements a) ->
  invert_img (U8 a) = U8 (amap (fun v => 255 - v) a)
  /\ (forall i j k v, aget a i j k = Some v ->
        exists out, invert_img (U8 a) = U8 out
                    /\ aget out i j k = Some (255 - v))
  /\ height (invert_img (U8 a)) = nrows a
  /\ width (invert_img (U8 a)) = ncols a
  /\ channels (invert_img (U8 a)) = nchan a
  /\ all_cells in_u8 (fun _ => False) (invert_img (U8 a))
  /\ invert_img (invert_img (U8 a)) = U8 a.
Proof.
  intros Hu8. rewrite Forall_forall in Hu8.
  assert (invert_img (U8 a) = U8 (amap (fun v => 255 - v) a)) as Hout.
  { cbn [invert_img]. f_equal. apply amap_ext_in. intros v Hv.
    specialize (Hu8 v Hv). unfold in_u8 in Hu8. apply Z.mod_small. lia. }
  split; [exact Hout|]. split.
  { intros i j k v Hv. eexists. split; [exact Hout|].
    rewrite aget_amap, Hv. reflexivity. }
  rewrite Hout. cbn [height width channels amap nrows ncols nchan].
  repeat split.
  - cbn [all_cells]. rewrite elements_amap. apply Forall_map, Forall_forall.
    intros v Hv. specialize (Hu8 v Hv). unfold in_u8 in *. lia.
  - cbn [invert_img]. f_equal. rewrite amap_amap.
    rewrite <- (amap_id a) at 2. apply amap_ext_in. intros v Hv.
    specialize (Hu8 v Hv). unfold in_u8 in Hu8.
    cbv beta. replace (255 - (255 - v)) with v by lia.
    apply Z.mod_small. lia.
Qed.


Section Pipeline.
Context {C : Collaborators}.

(** ** The identity gate *)

(** C8. When the first draw [d] is below [original], [random_transform]
    returns the input cast to uint8 (an 8-bit input comes back as it is)
    and the random source has been read once, so no later gate is drawn.
    With [original = 1.0] this is every run, for a source whose draws lie
    in [0, 1). *)
Theorem identity_gate (img : ndarray)
    (original invert scale min_scale max_scale hue rotate angle_std : float)
    (s : rng) :
  let d := fst (uniform 0 1 s) in
  let s1 := snd (uniform 0 1 s) in
  let kept :=
    random_transform img original invert scale min_scale max_scale hue rotate
                     angle_std s = Ok (U8 (astype_u8 img), s1)
    /\ forall a, img = U8 a -> U8 (astype_u8 img) = img in
  (PrimFloat.ltb d original = true -> kept)
  /\ (CollaboratorsOk C -> original = 1%float -> kept).
Proof.
  intros d s1 kept.
  assert (PrimFloat.ltb d original = true -> kept) as Hgate.
  { intros Hd. split.
    - unfold random_transform, bind, draw. subst d s1.
      destruct (uniform 0 1 s) as [d s1]. cbn [fst snd] in *.
      now rewrite Hd.
    - intros a ->. reflexivity. }
  split; [exact Hgate|].
  intros COk ->. apply Hgate. subst d. apply uniform01_range.
Qed.

(** ** The final cleanup *)

Lemma py_float_literals :
  py_float 0 = 0%float /\ py_float 55 = 55%float
  /\ py_float 200 = 200%float /\ py_float 255 = 255%float.
Proof. repeat split; reflexivity. Qed.

Lemma snap_above_200_spec (img : ndarray) :
  none_strictly_between 200 255 (snap_above_200 img).
Proof.
  destruct py_float_literals as (_ & _ & E200 & E255).
  destruct img as [a|a]; cbn [snap_above_200 none_strictly_between all_cells];
    rewrite elements_amap; apply Forall_map, Forall_forall; intros v _.
  - destruct (200 <? v) eqn:E; lia.
  - rewrite E200, E255.
    destruct (PrimFloat.ltb 200 v) eqn:E.
    + intros [_ H]. vm_compute in H. discriminate.
    + intros [H _]. congruence.
Qed.

Lemma snap_below_55_spec (img : ndarray) :
  none_strictly_between 0 55 (snap_below_55 img).
Proof.
  destruct py_float_literals as (E0 & E55 & _ & _).
  destruct img as [a|a]; cbn [snap_below_55 none_strictly_between all_cells];
    rewrite elements_amap; apply Forall_map, Forall_forall; intros v _.
  - destruct (v <? 55) eqn:E; lia.
  - rewrite E0, E55.
    destruct (PrimFloat.ltb v 55) eqn:E.
    + intros [H _]. vm_compute in H. discriminate.
    + intros [_ H]. congruence.
Qed.

(** A run of [random_transform] behind the identity gate: the gated stages,
    then one draw and one of the two cleanups. *)
Lemma random_transform_inv (img : ndarray)
    (original invert scale min_scale max_scale hue rotate angle_std : float)
    (s s' : rng) (out : ndarray) :
  PrimFloat.ltb (fst (uniform 0 1 s)) original = false ->
  random_transform img original invert scale min_scale max_scale hue rotate
                   angle_std s = Ok (out, s') ->
  exists img_trf s4,
    gated_stages img scale min_scale max_scale hue rotate angle_std
                 (snd (uniform 0 1 s)) = Ok (img_trf, s4)
    /\ s' = snd (uniform 0 1 s4)
    /\ out = if PrimFloat.ltb (fst (uniform 0 1 s4)) invert
             then snap_above_200 (invert_img img_trf)
             else snap_below_55 img_trf.
Proof.
  intros Hgate Hrun. unfold random_transform in Hrun.
  apply bind_ok in Hrun. destruct Hrun as (d & s1 & Hd & Hrun).
  apply draw_ok in Hd. rewrite Hd in Hgate. cbn [fst] in Hgate.
  rewrite Hgate in Hrun.
  apply bind_ok in Hrun. destruct Hrun as (img_trf & s4 & Hstages & Hrun).
  exists img_trf, s4. rewrite Hd. cbn [snd]. split; [exact Hstages|].
  unfold invert_or_clean in Hrun.
  apply bind_ok in Hrun. destruct Hrun as (d4 & s5 & Hd4 & Hrun).
  apply draw_ok in Hd4. rewrite Hd4. cbn [fst snd].
  destruct (PrimFloat.ltb d4 invert);
    apply ret_ok in Hrun; destruct Hrun as [-> ->]; auto.
Qed.

Lemma invert_then_snap_cells (img : ndarray) :
  cellwise (fun v => if 200 <? 255 - v then 255 else 255 - v)
           (fun v => if PrimFloat.ltb 200 (PrimFloat.sub 255 v) then 255%float
                     else PrimFloat.sub 255 v)
           img (snap_above_200 (invert_img img)).
Proof.
  destruct img as [a|a]; cbn [cellwise invert_img snap_above_200];
    (split; [repeat split|]).
  - intros i j k v Hv Hu8. rewrite !aget_amap, Hv. cbn [option_map].
    unfold in_u8 in Hu8. now rewrite (Z.mod_small (255 - v) 256) by lia.
  - intros i j k v Hv. now rewrite !aget_amap, Hv.
Qed.

Lemma snap_low_cells (img : ndarray) :
  cellwise (fun v => if v <? 55 then 0 else v)
           (fun v => if PrimFloat.ltb v 55 then 0%float else v)
           img (snap_below_55 img).
Proof.
  destruct img as [a|a]; cbn [cellwise snap_below_55];
    (split; [repeat split|]).
  - intros i j k v Hv _. now rewrite aget_amap, Hv.
  - intros i j k v Hv. now rewrite aget_amap, Hv.
Qed.

(** C5 (amended). A run of [random_transform] that passes the identity
    gate and whose scale, hue and rotate stages return the canvas
    [img_trf] returns, after one more draw, with exactly one of the two
    cleanups applied, whatever those gates did.  When the last draw is
    below [invert] the output is the inverted canvas with every cell above
    200 set to 255: each cell is [255 - v], or 255 where [255 - v > 200],
    for the cell [v] of [img_trf], and no cell lies strictly between 200
    and 255.  Otherwise each cell is [v], or 0 where [v < 55], and no cell
    lies strictly between 0 and 55.  Every run that returns behind the
    identity gate is of this form. *)
Theorem cleanup_always_runs (img : ndarray)
    (original invert scale min_scale max_scale hue rotate angle_std : float)
    (s : rng) :
  PrimFloat.ltb (fst (uniform 0 1 s)) original = false ->
  (forall img_trf s4,
     gated_stages img scale min_scale max_scale hue rotate angle_std
                  (snd (uniform 0 1 s)) = Ok (img_trf, s4) ->
     exists out,
       random_transform img original invert scale min_scale max_scale hue
                        rotate angle_std s = Ok (out, snd (uniform 0 1 s4))
       /\ (PrimFloat.ltb (fst (uniform 0 1 s4)) invert = true ->
             out = snap_above_200 (invert_img img_trf)
             /\ cellwise
                  (fun v => if 200 <? 255 - v then 255 else 255 - v)
                  (fun v => if PrimFloat.ltb 200 (PrimFloat.sub 255 v)
                            then 255%float else PrimFloat.sub 255 v)
                  img_trf out
             /\ none_strictly_between 200 255 out)
       /\ (PrimFloat.ltb (fst (uniform 0 1 s4)) invert = false ->
             out = snap_below_55 img_trf
             /\ cellwise
                  (fun v => if v <? 55 then 0 else v)
                  (fun v => if PrimFloat.ltb v 55 then 0%float else v)
                  img_trf out
             /\ none_strictly_between 0 55 out))
  /\ (forall out s',
        random_transform img original invert scale min_scale max_scale hue
                         rotate angle_std s = Ok (out, s') ->
        exists img_trf s4,
          gated_stages img scale min_scale max_scale hue rotate angle_std
                       (snd (uniform 0 1 s)) = Ok (img_trf, s4)
          /\ s' = snd (uniform 0 1 s4)).
Proof.
  intros Hgate. split.
  - intros img_trf s4 Hstages.
    exists (if PrimFloat.ltb (fst (uniform 0 1 s4)) invert
            then snap_above_200 (invert_img img_trf)
            else snap_below_55 img_trf).
    split.
    + unfold random_transform, bind, draw.
      destruct (uniform 0 1 s) as [d s1]. cbn [fst snd] in *.
      rewrite Hgate, Hstages. unfold invert_or_clean, bind, draw, ret.
      destruct (uniform 0 1 s4) as [d4 s5]. cbn [fst snd].
      now destruct (PrimFloat.ltb d4 invert).
    + split; intros E; rewrite E; (split; [reflexivity|]); split.
      * apply invert_then_snap_cells.
      * apply snap_above_200_spec.
      * apply snap_low_cells.
      * apply snap_below_55_spec.
  - intros out s' Hrun.
    destruct (random_transform_inv _ _ _ _ _ _ _ _ _ _ _ _ Hgate Hrun)
      as (img_trf & s4 & Hstages & Hs & _).
    eauto.
Qed.

End Pipeline.
(** ** The content extent *)

Lemma last_item_cons {A} (x y : A) (l : list A) :
  last_item (x :: y :: l) = last_item (y :: l).
Proof.
  unfold last_item. cbn [rev].
  destruct (rev l ++ [y]) as [|z t] eqn:E.
  - destruct (rev l); discriminate.
  - reflexivity.
Qed.

Lemma last_item_np_where (flags : list bool) : forall i b,
  last_item (np_where_from i flags) = Ok b ->
  i <= b < i + Z.of_nat (length flags).
Proof.
  induction flags as [|f rest IH]; intros i b H; [discriminate|].
  cbn [np_where_from length] in *. destruct f.
  - destruct (np_where_from (i + 1) rest) as [|y l] eqn:E.
    + inversion H. lia.
    + rewrite last_item_cons, <- E in H. apply IH in H. lia.
  - apply IH in H. lia.
Qed.

Lemma first_item_np_where (flags : list bool) : forall i a b,
  first_item (np_where_from i flags) = Ok a ->
  last_item (np_where_from i flags) = Ok b ->
  i <= a <= b.
Proof.
  induction flags as [|f rest IH]; intros i a b Ha Hb; [discriminate|].
  cbn [np_where_from] in *. destruct f.
  - inversion Ha; subst a.
    pose proof (last_item_np_where (true :: rest) i b Hb). lia.
  - specialize (IH _ _ _ Ha Hb). lia.
Qed.

Section Rescale.
Context {C : Collaborators}.

(** ** Division by zero in random_scale *)

Lemma py_float_div_by_zero (a : float) :
  py_float_div a (py_float 0) = Raise ZeroDivisionError.
Proof. reflexivity. Qed.

Lemma py_float_div_raises (a b : float) (e : exn) :
  py_float_div a b = Raise e -> e = ZeroDivisionError.
Proof.
  unfold py_float_div. destruct (PrimFloat.eqb b 0); congruence.
Qed.

(** C10. A canvas whose content lies in one row ([row_max = row_min]) or in
    one column, and so has content on each axis, makes [random_scale] raise
    ZeroDivisionError when it computes the largest scale; a run of
    [random_scale] that returns had content on at least two rows and on at
    least two columns. *)
Theorem one_row_or_column_divides_by_zero (img : ndarray)
    (min_scale max_scale : float) (min_pad : Z) (s : rng) :
  (forall row_min row_max col_min col_max,
     first_item (content_rows img) = Ok row_min ->
     last_item (content_rows img) = Ok row_max ->
     first_item (content_cols img) = Ok col_min ->
     last_item (content_cols img) = Ok col_max ->
     row_max = row_min \/ col_max = col_min ->
     random_scale img min_scale max_scale min_pad s = Raise ZeroDivisionError)
  /\ (forall out s',
        random_scale img min_scale max_scale min_pad s = Ok (out, s') ->
        exists row_min row_max col_min col_max,
          first_item (content_rows img) = Ok row_min
          /\ last_item (content_rows img) = Ok row_max
          /\ first_item (content_cols img) = Ok col_min
          /\ last_item (content_cols img) = Ok col_max
          /\ row_min < row_max /\ col_min < col_max).
Proof.
  split.
  - intros r0 r1 c0 c1 Hr0 Hr1 Hc0 Hc1 Hone.
    unfold random_scale, scale_and_resample, bind, lift.
    rewrite Hr1, Hr0, Hc1, Hc0.
    destruct (py_float_div (py_float (Z.of_nat (height img))) (py_float (r1 - r0)))
      as [by_h|e] eqn:Eh.
    2:{ now rewrite (py_float_div_raises _ _ _ Eh). }
    destruct Hone as [-> | ->].
    + rewrite Z.sub_diag, py_float_div_by_zero in Eh. discriminate.
    + now rewrite Z.sub_diag, py_float_div_by_zero.
  - intros out s' Hrun. unfold random_scale in Hrun.
    apply bind_ok in Hrun. destruct Hrun as (img_scale & s1 & Hrun & _).
    unfold scale_and_resample in Hrun. run_inv Hrun.
    rename x into r1, x0 into r0, x1 into c1, x2 into c0.
    exists r0, r1, c0, c1. repeat (split; [assumption|]).
    pose proof (first_item_np_where _ _ _ _ Hstep0 Hstep) as Hr.
    pose proof (first_item_np_where _ _ _ _ Hstep2 Hstep1) as Hc.
    split.
    + destruct (Z.eq_dec r1 r0) as [->|]; [|lia].
      rewrite Z.sub_diag, py_float_div_by_zero in Hstep3. discriminate.
    + destruct (Z.eq_dec c1 c0) as [->|]; [|lia].
      rewrite Z.sub_diag, py_float_div_by_zero in Hstep4. discriminate.
Qed.

(** ** The fallback of random_scale *)

(** C4. When the content of the resampled image, widened by [min_pad] on
    both sides, is higher than H or wider than W, [random_scale] returns
    the input canvas itself: nothing is cropped or padded. *)
Theorem fallback_returns_input (img : ndarray) (min_scale max_scale : float)
    (min_pad : Z) (s s1 : rng) (img_scale : array Z)
    (row_min row_max col_min col_max : Z) :
  scale_and_resample img min_scale max_scale s = Ok (img_scale, s1) ->
  content_extent (U8 img_scale) = Ok (row_min, row_max, col_min, col_max) ->
  (row_max - row_min) + 2 * min_pad > Z.of_nat (height img)
  \/ (col_max - col_min) + 2 * min_pad > Z.of_nat (width img) ->
  random_scale img min_scale max_scale min_pad s = Ok (img, s1).
Proof.
  intros Hres Hext Hbig.
  unfold random_scale, bind. rewrite Hres.
  unfold lift, recrop. rewrite Hext. cbn [rbind].
  replace (too_large _ _ _ _ _ _ _) with true; [reflexivity|].
  symmetry. unfold too_large. apply orb_true_iff.
  destruct Hbig; [left|right]; lia.
Qed.

End Rescale.
(** ** Slices, crops and pads *)

Lemma slice_index_le (n : nat) (i : Z) : (slice_index n i <= n)%nat.
Proof. unfold slice_index. lia. Qed.

Lemma slice_index_inside (n : nat) (i : Z) :
  0 <= i <= Z.of_nat n -> slice_index n i = Z.to_nat i.
Proof.
  intros H. unfold slice_index.
  destruct (i <? 0) eqn:E; lia.
Qed.

Lemma length_py_slice {A} (lo hi : Z) (l : list A) :
  length (py_slice lo hi l) = slice_len (length l) lo hi.
Proof.
  unfold py_slice, slice_len. rewrite length_firstn, length_skipn.
  pose proof (slice_index_le (length l) hi). lia.
Qed.

Lemma nth_error_py_slice {A} (lo hi : Z) (l : list A) (i : nat) :
  nth_error (py_slice lo hi l) i =
  if (i <? slice_len (length l) lo hi)%nat
  then nth_error l (slice_index (length l) lo + i)
  else None.
Proof.
  unfold py_slice. rewrite nth_error_firstn.
  destruct (i <? _)%nat; [apply nth_error_skipn|reflexivity].
Qed.

Lemma in_py_slice {A} (lo hi : Z) (l : list A) (x : A) :
  In x (py_slice lo hi l) -> In x l.
Proof.
  unfold py_slice. intros H.
  rewrite <- (firstn_skipn (slice_index (length l) lo) l).
  apply in_or_app. right.
  rewrite <- (firstn_skipn (slice_len (length l) lo hi)
                           (skipn (slice_index (length l) lo) l)).
  apply in_or_app. now left.
Qed.

Lemma wf_crop {A} (a : array A) (y0 y1 x0 x1 : Z) :
  wf a -> wf (crop a y0 y1 x0 x1).
Proof.
  unfold wf, wf_grid, crop. cbn [nrows ncols nchan cells].
  intros [Hlen Hrows]. split.
  - now rewrite length_map, length_py_slice, Hlen.
  - apply Forall_map, Forall_forall. intros row Hrow.
    apply in_py_slice in Hrow.
    rewrite Forall_forall in Hrows. destruct (Hrows row Hrow) as [Hw Hpx].
    split; [now rewrite length_py_slice, Hw|].
    apply Forall_forall. intros px Hin. apply in_py_slice in Hin.
    rewrite Forall_forall in Hpx. auto.
Qed.

Lemma aget_crop {A} (a : array A) (y0 y1 x0 x1 : Z) (i j k : nat) :
  wf a ->
  aget (crop a y0 y1 x0 x1) i j k =
  if ((i <? slice_len (nrows a) y0 y1) && (j <? slice_len (ncols a) x0 x1))%nat%bool
  then aget a (slice_index (nrows a) y0 + i) (slice_index (ncols a) x0 + j) k
  else None.
Proof.
  intros [Hlen Hrows]. unfold aget, crop. cbn [cells].
  rewrite nth_error_map, nth_error_py_slice, Hlen.
  destruct (i <? slice_len (nrows a) y0 y1)%nat; [|reflexivity].
  cbn [andb].
  destruct (nth_error (cells a) (slice_index (nrows a) y0 + i)) as [row|] eqn:Ei.
  2:{ cbn [option_map]. now destruct (j <? slice_len (ncols a) x0 x1)%nat. }
  cbn [option_map].
  rewrite Forall_forall in Hrows.
  destruct (Hrows row (nth_error_In _ _ Ei)) as [Hw _].
  rewrite nth_error_py_slice, Hw.
  now destruct (j <? _)%nat.
Qed.

Lemma np_pad_ok {A} (zero : A) (a : array A) (up down left right : Z)
    (out : array A) :
  np_pad zero a up down left right = Ok out ->
  0 <= up /\ 0 <= down /\ 0 <= left /\ 0 <= right
  /\ out = pad_cells zero a (Z.to_nat up) (Z.to_nat down)
                     (Z.to_nat left) (Z.to_nat right).
Proof.
  unfold np_pad.
  destruct (up <? 0) eqn:E1, (down <? 0) eqn:E2, (left <? 0) eqn:E3,
           (right <? 0) eqn:E4; cbn [orb]; try discriminate.
  intros H. inversion H. repeat split; lia.
Qed.

Lemma nth_error_repeat_some {A} (x y : A) (n i : nat) :
  nth_error (repeat x n) i = Some y -> y = x.
Proof. intros H. apply nth_error_In in H. now apply repeat_spec in H. Qed.

(** The cells of a padded array: zeros around the cells of the array. *)
Lemma aget_pad_outside {A} (zero : A) (a : array A) (up down left right : nat)
    (i j k : nat) (v : A) :
  wf a ->
  aget (pad_cells zero a up down left right) i j k = Some v ->
  (i < up \/ up + nrows a <= i \/ j < left \/ left + ncols a <= j)%nat ->
  v = zero.
Proof.
  intros [Hlen Hrows] Hget Hout. unfold aget, pad_cells in Hget.
  cbn [cells] in Hget.
  set (blank := repeat (repeat zero (nchan a)) (left + ncols a + right)) in *.
  assert (forall row, nth_error blank j = Some row -> nth_error row k = Some v ->
                      v = zero) as Hblank.
  { intros row Hrow Hv. apply nth_error_repeat_some in Hrow. subst row.
    now apply nth_error_repeat_some in Hv. }
  destruct (nth_error (repeat blank up ++ _) i) as [row|] eqn:Ei; [|discriminate].
  destruct (nth_error row j) as [px|] eqn:Ej; [|discriminate].
  rewrite nth_error_app in Ei. rewrite repeat_length in Ei.
  destruct (i <? up)%nat eqn:Eup.
  { apply nth_error_repeat_some in Ei. subst row. eauto. }
  apply Nat.ltb_ge in Eup.
  rewrite nth_error_app, length_map, Hlen in Ei.
  destruct (i - up <? nrows a)%nat eqn:Ein.
  2:{ apply nth_error_repeat_some in Ei. subst row. eauto. }
  apply Nat.ltb_lt in Ein.
  rewrite nth_error_map in Ei.
  destruct (nth_error (cells a) (i - up)) as [r|] eqn:Er; [|discriminate].
  cbn [option_map] in Ei. inversion Ei; subst row. clear Ei.
  rewrite Forall_forall in Hrows.
  destruct (Hrows r (nth_error_In _ _ Er)) as [Hw _].
  unfold pad_row in Ej. rewrite nth_error_app, repeat_length in Ej.
  destruct (j <? left)%nat eqn:Eleft.
  { apply nth_error_repeat_some in Ej. subst px.
    now apply nth_error_repeat_some in Hget. }
  apply Nat.ltb_ge in Eleft.
  rewrite nth_error_app, Hw in Ej.
  destruct (j - left <? ncols a)%nat eqn:Ejn.
  { apply Nat.ltb_lt in Ejn. lia. }
  apply nth_error_repeat_some in Ej. subst px.
  now apply nth_error_repeat_some in Hget.
Qed.

Lemma aget_pad_inside {A} (zero : A) (a : array A) (up down left right : nat)
    (i j k : nat) :
  wf a -> (i < nrows a)%nat -> (j < ncols a)%nat ->
  aget (pad_cells zero a up down left right) (up + i) (left + j) k
  = aget a i j k.
Proof.
  intros [Hlen Hrows] Hi Hj. unfold aget, pad_cells. cbn [cells].
  rewrite nth_error_app2 by (rewrite repeat_length; lia).
  rewrite repeat_length.
  replace (up + i - up)%nat with i by lia.
  rewrite nth_error_app1 by (rewrite length_map; lia).
  rewrite nth_error_map.
  destruct (nth_error (cells a) i) as [r|] eqn:Er.
  2:{ apply nth_error_None in Er. lia. }
  cbn [option_map].
  rewrite Forall_forall in Hrows.
  destruct (Hrows r (nth_error_In _ _ Er)) as [Hw _].
  unfold pad_row.
  rewrite nth_error_app2 by (rewrite repeat_length; lia).
  rewrite repeat_length.
  replace (left + j - left)%nat with j by lia.
  rewrite nth_error_app1 by lia. reflexivity.
Qed.

Lemma wf_pad_cells {A} (zero : A) (a : array A) (up down left right : nat) :
  wf a -> wf (pad_cells zero a up down left right).
Proof.
  intros [Hlen Hrows]. unfold wf, wf_grid, pad_cells.
  cbn [nrows ncols nchan cells].
  assert (forall n, Forall (fun px : list A => length px = nchan a)
                           (repeat (repeat zero (nchan a)) n)) as Hpx.
  { intros n. apply Forall_forall. intros px Hin.
    apply repeat_spec in Hin. subst px. apply repeat_length. }
  assert (forall n,
    Forall (fun row : list (list A) =>
              length row = (left + ncols a + right)%nat
              /\ Forall (fun px => length px = nchan a) row)
           (repeat (repeat (repeat zero (nchan a)) (left + ncols a + right)) n))
    as Hblank.
  { intros n. apply Forall_forall. intros row Hin.
    apply repeat_spec in Hin. subst row. split; [apply repeat_length|apply Hpx]. }
  split.
  - rewrite !length_app, !repeat_length, length_map. lia.
  - apply Forall_app. split; [apply Hblank|].
    apply Forall_app. split; [|apply Hblank].
    apply Forall_map. eapply Forall_impl; [|exact Hrows].
    intros row [Hw Hrow]. unfold pad_row. split.
    + rewrite !length_app, !repeat_length. lia.
    + apply Forall_app. split; [apply Hpx|].
      apply Forall_app. split; [exact Hrow|apply Hpx].
Qed.
Section Recrop.
Context {C : Collaborators}.

(** ** The crop and the pad of random_scale *)

Lemma scale_and_resample_wf {COk : CollaboratorsOk C} (img : ndarray)
    (min_scale max_scale : float) (s s1 : rng) (img_scale : array Z) :
  scale_and_resample img min_scale max_scale s = Ok (img_scale, s1) ->
  wf_u8 img_scale.
Proof.
  intros H. unfold scale_and_resample in H. run_inv H.
  eapply imresize_wf. eassumption.
Qed.

Lemma random_scale_inv (img : ndarray) (min_scale max_scale : float)
    (min_pad : Z) (s s' : rng) (out : ndarray) :
  random_scale img min_scale max_scale min_pad s = Ok (out, s') ->
  exists img_scale,
    scale_and_resample img min_scale max_scale s = Ok (img_scale, s')
    /\ recrop img img_scale min_pad = Ok out.
Proof.
  intros H. unfold random_scale in H.
  apply bind_ok in H. destruct H as (img_scale & s1 & Hres & H).
  apply lift_ok in H. destruct H as [H ->]. eauto.
Qed.

(** The path of [recrop] that crops and pads. *)
Lemma recrop_pads (img : ndarray) (img_scale : array Z) (min_pad : Z)
    (y_min y_max x_min x_max : Z) (out : ndarray) :
  content_extent (U8 img_scale) = Ok (y_min, y_max, x_min, x_max) ->
  too_large (Z.of_nat (height img)) (Z.of_nat (width img)) min_pad
            y_min y_max x_min x_max = false ->
  recrop img img_scale min_pad = Ok out ->
  let c := crop_extent img_scale
             (clip_extent (Z.of_nat (height img)) (Z.of_nat (width img)) min_pad
                          (y_min, y_max, x_min, x_max)) in
  let dh := Z.of_nat (height img) - Z.of_nat (nrows c) in
  let dw := Z.of_nat (width img) - Z.of_nat (ncols c) in
  0 <= pad_before dh /\ 0 <= pad_after dh
  /\ 0 <= pad_before dw /\ 0 <= pad_after dw
  /\ out = U8 (pad_cells 0 c (Z.to_nat (pad_before dh)) (Z.to_nat (pad_after dh))
                         (Z.to_nat (pad_before dw)) (Z.to_nat (pad_after dw))).
Proof.
  intros Hext Hfit Hrun c dh dw. unfold recrop in Hrun.
  rewrite Hext in Hrun. cbn [rbind] in Hrun. rewrite Hfit in Hrun.
  apply rbind_ok in Hrun. destruct Hrun as (padded & Hpad & Hout).
  inversion Hout; subst out. clear Hout.
  unfold repad in Hpad. apply np_pad_ok in Hpad.
  destruct Hpad as (Hu & Hd & Hl & Hr & ->). auto.
Qed.

Lemma pad_split (d : Z) :
  0 <= pad_before d -> 0 <= pad_after d ->
  0 <= d /\ pad_before d = d / 2 /\ pad_after d = d - d / 2
  /\ pad_before d <= pad_after d <= pad_before d + 1
  /\ (d mod 2 = 0 -> pad_after d = pad_before d)
  /\ (d mod 2 = 1 -> pad_after d = pad_before d + 1).
Proof.
  unfold pad_after, pad_before. intros Hb Ha.
  assert (0 <= d) as Hd by lia.
  rewrite (Z.quot_div_nonneg d 2) in * by lia.
  pose proof (Z.div_mod d 2 ltac:(lia)) as Hdm.
  pose proof (Z.mod_pos_bound d 2 ltac:(lia)).
  repeat split; lia.
Qed.

(** C7. In a run of [random_scale] that crops and pads, the deficit of
    each axis (the size of the canvas minus the size of the crop) is not
    negative and is split into [floor(deficit / 2)] cells before the
    content and the rest after it, so that before <= after <= before + 1
    and an odd deficit puts its extra cell after the content; the output
    is the crop at offset (before, before) and every cell around it is
    zero. *)
Theorem repad_splits_deficit {COk : CollaboratorsOk C} (img : ndarray)
    (min_scale max_scale : float) (min_pad : Z) (s s' : rng)
    (img_scale : array Z) (y_min y_max x_min x_max : Z) (out : ndarray) :
  scale_and_resample img min_scale max_scale s = Ok (img_scale, s') ->
  content_extent (U8 img_scale) = Ok (y_min, y_max, x_min, x_max) ->
  too_large (Z.of_nat (height img)) (Z.of_nat (width img)) min_pad
            y_min y_max x_min x_max = false ->
  random_scale img min_scale max_scale min_pad s = Ok (out, s') ->
  let c := crop_extent img_scale
             (clip_extent (Z.of_nat (height img)) (Z.of_nat (width img)) min_pad
                          (y_min, y_max, x_min, x_max)) in
  let dh := Z.of_nat (height img) - Z.of_nat (nrows c) in
  let dw := Z.of_nat (width img) - Z.of_nat (ncols c) in
  exists up down left right : nat,
    (0 <= dh /\ 0 <= dw)
    /\ (pad_before dh = Z.of_nat up /\ pad_after dh = Z.of_nat down
        /\ pad_before dw = Z.of_nat left /\ pad_after dw = Z.of_nat right)
    /\ (Z.of_nat up = dh / 2 /\ Z.of_nat down = dh - dh / 2
        /\ Z.of_nat left = dw / 2 /\ Z.of_nat right = dw - dw / 2)
    /\ (up <= down <= up + 1 /\ left <= right <= left + 1)%nat
    /\ (dh mod 2 = 1 -> down = S up) /\ (dw mod 2 = 1 -> right = S left)
    /\ out = U8 (pad_cells 0 c up down left right)
    /\ (forall i j k, (i < nrows c)%nat -> (j < ncols c)%nat ->
          aget (pad_cells 0 c up down left right) (up + i) (left + j) k
          = aget c i j k)
    /\ (forall i j k v,
          aget (pad_cells 0 c up down left right) i j k = Some v ->
          (i < up \/ up + nrows c <= i \/ j < left \/ left + ncols c <= j)%nat ->
          v = 0).
Proof.
  intros Hres Hext Hfit Hrun c dh dw.
  apply random_scale_inv in Hrun. destruct Hrun as (img_scale' & Hres' & Hrun).
  rewrite Hres in Hres'. inversion Hres'; subst img_scale'. clear Hres'.
  destruct (recrop_pads _ _ _ _ _ _ _ _ Hext Hfit Hrun)
    as (Hu & Hd & Hl & Hr & Hout).
  fold c dh dw in Hu, Hd, Hl, Hr, Hout.
  destruct (pad_split dh Hu Hd) as (Hdh & Eu & Ed & Hord & _ & Hodd).
  destruct (pad_split dw Hl Hr) as (Hdw & El & Er & Hordw & _ & Hoddw).
  assert (wf c) as Hwf.
  { apply scale_and_resample_wf in Hres. destruct Hres as [Hwf _].
    subst c. unfold crop_extent, clip_extent. now apply wf_crop. }
  exists (Z.to_nat (pad_before dh)), (Z.to_nat (pad_after dh)),
         (Z.to_nat (pad_before dw)), (Z.to_nat (pad_after dw)).
  rewrite !Z2Nat.id by assumption.
  split; [auto|]. split; [auto|]. split; [rewrite <- Eu, <- El; auto|].
  split; [lia|]. split; [intros E; specialize (Hodd E); lia|].
  split; [intros E; specialize (Hoddw E); lia|].
  split; [exact Hout|]. split.
  - intros i j k Hi Hj. now apply aget_pad_inside.
  - intros i j k v Hget Hwhere. eapply aget_pad_outside; eassumption.
Qed.

(** C2. In a run of [random_scale] that crops, with the clipped extent
    [y_min..y_max], [x_min..x_max] inside the resampled image, the crop
    has [y_max - y_min] rows and [x_max - x_min] columns: it is the rows
    [y_min .. y_max - 1] and the columns [x_min .. x_max - 1], and the row
    [y_max] and the column [x_max] of the extent are not in it.  The output
    is this crop, padded. *)
Theorem crop_drops_last_row_and_column {COk : CollaboratorsOk C}
    (img : ndarray) (min_scale max_scale : float) (min_pad : Z) (s s' : rng)
    (img_scale : array Z) (row_min row_max col_min col_max : Z)
    (y_min y_max x_min x_max : Z) (out : ndarray) :
  scale_and_resample img min_scale max_scale s = Ok (img_scale, s') ->
  content_extent (U8 img_scale) = Ok (row_min, row_max, col_min, col_max) ->
  too_large (Z.of_nat (height img)) (Z.of_nat (width img)) min_pad
            row_min row_max col_min col_max = false ->
  clip_extent (Z.of_nat (height img)) (Z.of_nat (width img)) min_pad
              (row_min, row_max, col_min, col_max)
    = (y_min, y_max, x_min, x_max) ->
  0 <= y_min <= y_max /\ y_max < Z.of_nat (nrows img_scale) ->
  0 <= x_min <= x_max /\ x_max < Z.of_nat (ncols img_scale) ->
  random_scale img min_scale max_scale min_pad s = Ok (out, s') ->
  let c := crop_extent img_scale (y_min, y_max, x_min, x_max) in
  Z.of_nat (nrows c) = y_max - y_min
  /\ Z.of_nat (ncols c) = x_max - x_min
  /\ (forall i j k,
        aget c i j k =
        if ((Z.of_nat i <? y_max - y_min) && (Z.of_nat j <? x_max - x_min))%bool
        then aget img_scale (Z.to_nat y_min + i) (Z.to_nat x_min + j) k
        else None)
  /\ (forall i j k,
        (Z.to_nat y_min + i)%nat = Z.to_nat y_max
        \/ (Z.to_nat x_min + j)%nat = Z.to_nat x_max ->
        aget c i j k = None)
  /\ exists up down left right, out = U8 (pad_cells 0 c up down left right).
Proof.
  intros Hres Hext Hfit Hclip Hy Hx Hrun c.
  apply random_scale_inv in Hrun. destruct Hrun as (img_scale' & Hres' & Hrun).
  rewrite Hres in Hres'. inversion Hres'; subst img_scale'. clear Hres'.
  destruct (recrop_pads _ _ _ _ _ _ _ _ Hext Hfit Hrun) as (_ & _ & _ & _ & Hout).
  rewrite Hclip in Hout. fold c in Hout.
  apply scale_and_resample_wf in Hres. destruct Hres as [Hwf _].
  assert (slice_len (nrows img_scale) y_min y_max = Z.to_nat (y_max - y_min))
    as Eh.
  { unfold slice_len. rewrite !slice_index_inside by lia. lia. }
  assert (slice_len (ncols img_scale) x_min x_max = Z.to_nat (x_max - x_min))
    as Ew.
  { unfold slice_len. rewrite !slice_index_inside by lia. lia. }
  assert (forall i j k,
        aget c i j k =
        if ((Z.of_nat i <? y_max - y_min) && (Z.of_nat j <? x_max - x_min))%bool
        then aget img_scale (Z.to_nat y_min + i) (Z.to_nat x_min + j) k
        else None) as Hget.
  { intros i j k. subst c. unfold crop_extent.
    rewrite aget_crop by assumption. rewrite Eh, Ew.
    rewrite !slice_index_inside by lia.
    replace (i <? Z.to_nat (y_max - y_min))%nat
      with (Z.of_nat i <? y_max - y_min).
    2:{ destruct (Z.of_nat i <? y_max - y_min) eqn:E1;
          destruct (i <? Z.to_nat (y_max - y_min))%nat eqn:E2;
          try reflexivity.
        - apply Nat.ltb_ge in E2. lia.
        - apply Nat.ltb_lt in E2. lia. }
    replace (j <? Z.to_nat (x_max - x_min))%nat
      with (Z.of_nat j <? x_max - x_min).
    2:{ destruct (Z.of_nat j <? x_max - x_min) eqn:E1;
          destruct (j <? Z.to_nat (x_max - x_min))%nat eqn:E2;
          try reflexivity.
        - apply Nat.ltb_ge in E2. lia.
        - apply Nat.ltb_lt in E2. lia. }
    reflexivity. }
  split; [subst c; cbn [crop_extent crop nrows]; lia|].
  split; [subst c; cbn [crop_extent crop ncols]; lia|].
  split; [exact Hget|]. split.
  - intros i j k Hlast. rewrite Hget.
    destruct (Z.of_nat i <? y_max - y_min) eqn:E1; [|reflexivity].
    destruct (Z.of_nat j <? x_max - x_min) eqn:E2; [|reflexivity].
    lia.
  - eauto.
Qed.

End Recrop.
(** ** Masks and channels *)

Lemma nth_error_zipw {A B D} (f : A -> B -> D) (l : list A) : forall m i,
  nth_error (zipw f l m) i =
  match nth_error l i, nth_error m i with
  | Some x, Some y => Some (f x y)
  | _, _ => None
  end.
Proof.
  induction l as [|x l IH]; intros m i.
  - cbn. now destruct i.
  - destruct m as [|y m].
    + cbn. destruct i; cbn; [reflexivity|]. now destruct (nth_error l i).
    + destruct i; cbn; [reflexivity|apply IH].
Qed.

Lemma mask_assign_ok {A} (mask : array bool) (a : array A) (v : A)
    (out : array A) :
  mask_assign mask a v = Ok out ->
  same_shape a out
  /\ same_shape a mask
  /\ forall i j k,
       aget out i j k =
       match aget mask i j k, aget a i j k with
       | Some m, Some x => Some (if m then v else x)
       | _, _ => None
       end.
Proof.
  unfold mask_assign, shape_eqb.
  destruct (Nat.eqb (nrows mask) (nrows a)) eqn:E1; [|discriminate].
  destruct (Nat.eqb (ncols mask) (ncols a)) eqn:E2; [|discriminate].
  destruct (Nat.eqb (nchan mask) (nchan a)) eqn:E3; [|discriminate].
  apply Nat.eqb_eq in E1, E2, E3. cbn [andb]. intros H. inversion H.
  split; [repeat split|]. split; [repeat split; assumption|].
  intros i j k. unfold aget. cbn [cells].
  rewrite nth_error_zipw.
  destruct (nth_error (cells mask) i) as [mrow|]; [|reflexivity].
  destruct (nth_error (cells a) i) as [row|].
  2:{ destruct (nth_error mrow j) as [mpx|]; [|reflexivity].
      now destruct (nth_error mpx k). }
  rewrite nth_error_zipw.
  destruct (nth_error mrow j) as [mpx|]; [|reflexivity].
  destruct (nth_error row j) as [px|].
  2:{ now destruct (nth_error mpx k). }
  apply nth_error_zipw.
Qed.

Lemma set_channel_ok {A} (k : nat) (v : A) (a out : array A) :
  set_channel k v a = Ok out -> same_shape a out.
Proof.
  unfold set_channel. destruct (k <? nchan a)%nat; [|discriminate].
  intros H. inversion H. repeat split.
Qed.

Lemma same_shape_amap {A B} (f : A -> B) (a : array A) : same_shape a (amap f a).
Proof. repeat split. Qed.

Lemma same_shape_trans {A B D} (a : array A) (b : array B) (c : array D) :
  same_shape a b -> same_shape b c -> same_shape a c.
Proof. unfold same_shape. intuition congruence. Qed.

Lemma same_shape_sym {A B} (a : array A) (b : array B) :
  same_shape a b -> same_shape b a.
Proof. unfold same_shape. intuition congruence. Qed.

Section Recolor.
Context {C : Collaborators}.

(** ** random_hue *)

Lemma bg_value_cases (img : ndarray) :
  bg_value_of img = 0 \/ bg_value_of img = 255.
Proof. unfold bg_value_of. destruct (_ <? _); auto. Qed.

(** What a run of [random_hue] returns: the converted image [img_rgb] with
    the background cells overwritten, times 255. *)
Lemma random_hue_inv {COk : CollaboratorsOk C} (img : ndarray) (s s' : rng)
    (out : ndarray) :
  random_hue img s = Ok (out, s') ->
  exists img_rgb masked : array float,
    wf img_rgb
    /\ same_shape (astype_u8 img) img_rgb
    /\ mask_assign (cell_is (bg_value_of img) img) img_rgb
                   (py_float (bg_value_of img)) = Ok masked
    /\ out = F64 (amap (fun v => PrimFloat.mul v 255) masked).
Proof.
  intros H. unfold random_hue in H.
  apply bind_ok in H. destruct H as (hsv0 & s1 & H0 & H). run_inv H0.
  apply bind_ok in H. destruct H as (hue & s2 & _ & H).
  apply bind_ok in H. destruct H as (sat & s3 & _ & H).
  apply bind_ok in H. destruct H as (val0 & s4 & _ & H).
  apply bind_ok in H. destruct H as (val & s5 & _ & H).
  apply bind_ok in H. destruct H as (hsv1 & s6 & H1 & H). run_inv H1.
  apply bind_ok in H. destruct H as (hsv2 & s7 & H2 & H). run_inv H2.
  apply bind_ok in H. destruct H as (hsv3 & s8 & H3 & H). run_inv H3.
  apply bind_ok in H. destruct H as (img_rgb & s9 & H4 & H). run_inv H4.
  apply bind_ok in H. destruct H as (masked & s10 & H5 & H). run_inv H5.
  apply ret_ok in H. destruct H as [-> ->].
  exists img_rgb, masked. split; [eapply hsv2rgb_wf; eassumption|].
  split; [|auto].
  apply rgb2hsv_shape in H0. apply set_channel_ok in H1, H2, H3.
  apply hsv2rgb_shape in H4.
  unfold same_shape in *. cbn [amap nrows ncols nchan] in H4.
  intuition congruence.
Qed.

Lemma random_hue_shape {COk : CollaboratorsOk C} (img : ndarray) (s s' : rng)
    (out : ndarray) :
  random_hue img s = Ok (out, s') ->
  height out = height img /\ width out = width img
  /\ channels out = channels img /\ dtype_of out = Float64.
Proof.
  intros H. apply random_hue_inv in H.
  destruct H as (img_rgb & masked & _ & Hshape & Hmask & ->).
  apply mask_assign_ok in Hmask. destruct Hmask as (Hm & _ & _).
  pose proof (same_shape_trans _ _ _ Hshape Hm) as (Hh & Hw & Hc).
  cbn [height width channels dtype_of amap nrows ncols nchan].
  rewrite Hh, Hw, Hc. destruct img; cbn; auto.
Qed.

(** C1. [random_hue] overwrites the cells that held the background value
    and then multiplies the whole image by 255: where the input holds the
    background value the output holds 0 for a dark background and 65025
    (255 * 255) for a light one. *)
Theorem random_hue_background {COk : CollaboratorsOk C} (a : array Z)
    (s s' : rng) (out : ndarray) :
  wf a ->
  random_hue (U8 a) s = Ok (out, s') ->
  exists o,
    out = F64 o
    /\ forall i j k,
         aget a i j k = Some (bg_value_of (U8 a)) ->
         aget o i j k =
         Some (if bg_value_of (U8 a) =? 0 then 0%float else 65025%float).
Proof.
  intros Hwf H. apply random_hue_inv in H.
  destruct H as (img_rgb & masked & Hwf_rgb & Hshape & Hmask & ->).
  eexists. split; [reflexivity|]. intros i j k Hbg.
  apply mask_assign_ok in Hmask. destruct Hmask as (_ & _ & Hget).
  rewrite aget_amap, Hget. cbn [cell_is]. rewrite aget_amap, Hbg.
  cbn [option_map]. rewrite Z.eqb_refl.
  destruct (aget_bounds _ _ _ _ _ Hwf Hbg) as (Hi & Hj & Hk).
  destruct Hshape as (Hh & Hw & Hc). cbn [astype_u8] in Hh, Hw, Hc.
  destruct (aget_defined img_rgb i j k Hwf_rgb) as [x ->]; try lia.
  cbn [option_map].
  destruct (bg_value_cases (U8 a)) as [-> | ->]; reflexivity.
Qed.

End Recolor.
Section Shapes.
Context {C : Collaborators}.

(** ** Shapes and element types along the pipeline *)

Lemma recrop_shape (img : ndarray) (img_scale : array Z) (min_pad : Z)
    (out : ndarray) :
  recrop img img_scale min_pad = Ok out ->
  height out = height img /\ width out = width img.
Proof.
  intros H. unfold recrop in H.
  apply rbind_ok in H. destruct H as ([[[y_min y_max] x_min] x_max] & _ & H).
  destruct (too_large _ _ _ _ _ _ _).
  { inversion H. auto. }
  apply rbind_ok in H. destruct H as (padded & Hpad & H).
  inversion H; subst out. clear H.
  unfold repad in Hpad. apply np_pad_ok in Hpad.
  destruct Hpad as (Hu & Hd & Hl & Hr & ->).
  unfold pad_after in *.
  cbn [height width pad_cells nrows ncols]. lia.
Qed.

Lemma random_scale_shape (img : ndarray) (min_scale max_scale : float)
    (min_pad : Z) (s s' : rng) (out : ndarray) :
  random_scale img min_scale max_scale min_pad s = Ok (out, s') ->
  height out = height img /\ width out = width img.
Proof.
  intros H. apply random_scale_inv in H. destruct H as (img_scale & _ & H).
  eapply recrop_shape. eassumption.
Qed.

Lemma random_scale_dtype (img : ndarray) (min_scale max_scale : float)
    (min_pad : Z) (s s' : rng) (out : ndarray) :
  random_scale img min_scale max_scale min_pad s = Ok (out, s') ->
  dtype_of out = UInt8 \/ out = img.
Proof.
  intros H. apply random_scale_inv in H. destruct H as (img_scale & _ & H).
  unfold recrop in H.
  apply rbind_ok in H. destruct H as ([[[y_min y_max] x_min] x_max] & _ & H).
  destruct (too_large _ _ _ _ _ _ _).
  { inversion H. auto. }
  apply rbind_ok in H. destruct H as (padded & _ & H).
  inversion H. auto.
Qed.

Lemma random_rotate_shape {COk : CollaboratorsOk C} (img : ndarray)
    (angle_std : float) (s s' : rng) (out : ndarray) :
  random_rotate img angle_std s = Ok (out, s') ->
  height out = height img /\ width out = width img /\ dtype_of out = UInt8.
Proof.
  intros H. unfold random_rotate in H.
  apply bind_ok in H. destruct H as (z & s1 & _ & H).
  apply bind_ok in H. destruct H as (rotated & s2 & _ & H).
  apply bind_ok in H. destruct H as (resized & s3 & Hres & H). run_inv Hres.
  apply ret_ok in H. destruct H as [-> ->].
  apply imresize_to_shape in Hres. cbn [height width dtype_of]. tauto.
Qed.

Lemma snap_above_200_shape (img : ndarray) :
  height (snap_above_200 img) = height img
  /\ width (snap_above_200 img) = width img
  /\ dtype_of (snap_above_200 img) = dtype_of img.
Proof. destruct img; cbn; auto. Qed.

Lemma snap_below_55_shape (img : ndarray) :
  height (snap_below_55 img) = height img
  /\ width (snap_below_55 img) = width img
  /\ dtype_of (snap_below_55 img) = dtype_of img.
Proof. destruct img; cbn; auto. Qed.

(** The three gates, one after the other. *)
Lemma gated_stages_inv (img : ndarray)
    (scale min_scale max_scale hue rotate angle_std : float) (s s' : rng)
    (img_trf : ndarray) :
  gated_stages img scale min_scale max_scale hue rotate angle_std s
    = Ok (img_trf, s') ->
  exists scaled s1 recolored s2,
    (if PrimFloat.ltb (fst (uniform 0 1 s)) scale
     then random_scale img min_scale max_scale 0 (snd (uniform 0 1 s))
     else Ok (img, snd (uniform 0 1 s))) = Ok (scaled, s1)
    /\ (if PrimFloat.ltb (fst (uniform 0 1 s1)) hue
        then random_hue scaled (snd (uniform 0 1 s1))
        else Ok (scaled, snd (uniform 0 1 s1))) = Ok (recolored, s2)
    /\ (if PrimFloat.ltb (fst (uniform 0 1 s2)) rotate
        then random_rotate recolored angle_std (snd (uniform 0 1 s2))
        else Ok (recolored, snd (uniform 0 1 s2))) = Ok (img_trf, s').
Proof.
  intros H. unfold gated_stages in H.
  apply bind_ok in H. destruct H as (d1 & t1 & Hd1 & H). apply draw_ok in Hd1.
  apply bind_ok in H. destruct H as (scaled & s1 & H1 & H).
  apply bind_ok in H. destruct H as (d2 & t2 & Hd2 & H). apply draw_ok in Hd2.
  apply bind_ok in H. destruct H as (recolored & s2 & H2 & H).
  apply bind_ok in H. destruct H as (d3 & t3 & Hd3 & H). apply draw_ok in Hd3.
  apply bind_ok in H. destruct H as (rotated & s3 & H3 & H).
  apply ret_ok in H. destruct H as [-> ->].
  exists scaled, s1, recolored, s2.
  rewrite Hd1, Hd2, Hd3. cbn [fst snd].
  repeat split.
  - now destruct (PrimFloat.ltb d1 scale).
  - now destruct (PrimFloat.ltb d2 hue).
  - now destruct (PrimFloat.ltb d3 rotate).
Qed.

Lemma gated_stages_shape {COk : CollaboratorsOk C} (img : ndarray)
    (scale min_scale max_scale hue rotate angle_std : float) (s s' : rng)
    (img_trf : ndarray) :
  gated_stages img scale min_scale max_scale hue rotate angle_std s
    = Ok (img_trf, s') ->
  height img_trf = height img /\ width img_trf = width img.
Proof.
  intros H. apply gated_stages_inv in H.
  destruct H as (scaled & s1 & recolored & s2 & H1 & H2 & H3).
  assert (height scaled = height img /\ width scaled = width img) as [E1 E1'].
  { destruct (PrimFloat.ltb _ scale).
    - eapply random_scale_shape. eassumption.
    - inversion H1. auto. }
  assert (height recolored = height scaled /\ width recolored = width scaled)
    as [E2 E2'].
  { destruct (PrimFloat.ltb _ hue).
    - apply random_hue_shape in H2. tauto.
    - inversion H2. auto. }
  assert (height img_trf = height recolored /\ width img_trf = width recolored)
    as [E3 E3'].
  { destruct (PrimFloat.ltb _ rotate).
    - apply random_rotate_shape in H3. tauto.
    - inversion H3. auto. }
  split; congruence.
Qed.

Lemma astype_u8_shape (img : ndarray) :
  nrows (astype_u8 img) = height img /\ ncols (astype_u8 img) = width img.
Proof. destruct img; cbn; auto. Qed.

(** C3. With the identity and the rotate gates closed ([original = 0],
    [rotate = 0]) and the hue gate open ([hue = 1]), every canvas that
    [random_transform] returns has float64 cells. *)
Theorem transform_returns_float64 {COk : CollaboratorsOk C} (img : ndarray)
    (invert scale min_scale max_scale angle_std : float) (s s' : rng)
    (out : ndarray) :
  random_transform img 0 invert scale min_scale max_scale 1 0 angle_std s
    = Ok (out, s') ->
  dtype_of out = Float64.
Proof.
  intros H.
  destruct (random_transform_inv img 0 invert scale min_scale max_scale 1 0
              angle_std s s' out (proj1 (uniform01_range s)) H)
    as (img_trf & s4 & Hstages & _ & ->).
  apply gated_stages_inv in Hstages.
  destruct Hstages as (scaled & s1 & recolored & s2 & _ & H2 & H3).
  rewrite (proj2 (uniform01_range s1)) in H2.
  rewrite (proj1 (uniform01_range s2)) in H3.
  apply random_hue_shape in H2. destruct H2 as (_ & _ & _ & Hd).
  inversion H3; subst img_trf.
  match goal with |- context [if ?b then _ else _] => destruct b end.
  - destruct (snap_above_200_shape (invert_img recolored)) as (_ & _ & ->).
    destruct (invert_img_shape recolored) as (_ & _ & _ & ->). exact Hd.
  - destruct (snap_below_55_shape recolored) as (_ & _ & ->). exact Hd.
Qed.

(** With the rotate gate open ([rotate = 1], the default) the output is
    8-bit, as it is behind the identity gate. *)
Lemma transform_returns_uint8_when_rotating {COk : CollaboratorsOk C}
    (img : ndarray)
    (original invert scale min_scale max_scale hue angle_std : float)
    (s s' : rng) (out : ndarray) :
  random_transform img original invert scale min_scale max_scale hue 1
                   angle_std s = Ok (out, s') ->
  dtype_of out = UInt8.
Proof.
  intros H. unfold random_transform in H.
  apply bind_ok in H. destruct H as (d & s1 & _ & H).
  destruct (PrimFloat.ltb d original).
  { apply ret_ok in H. destruct H as [-> _]. reflexivity. }
  apply bind_ok in H. destruct H as (img_trf & s4 & Hstages & H).
  apply gated_stages_inv in Hstages.
  destruct Hstages as (scaled & t1 & recolored & t2 & _ & _ & H3).
  rewrite (proj2 (uniform01_range t2)) in H3.
  apply random_rotate_shape in H3. destruct H3 as (_ & _ & Hd).
  unfold invert_or_clean in H.
  apply bind_ok in H. destruct H as (d4 & s5 & _ & H).
  destruct (PrimFloat.ltb d4 invert);
    apply ret_ok in H; destruct H as [-> _].
  - destruct (snap_above_200_shape (invert_img img_trf)) as (_ & _ & ->).
    destruct (invert_img_shape img_trf) as (_ & _ & _ & ->). exact Hd.
  - destruct (snap_below_55_shape img_trf) as (_ & _ & ->). exact Hd.
Qed.

End Shapes.
Section Returns.
Context {C : Collaborators}.

(** ** When random_scale returns *)

Lemma slice_len_le (n : nat) (lo hi : Z) :
  0 <= hi -> Z.of_nat (slice_len n lo hi) <= hi.
Proof.
  intros H. unfold slice_len, slice_index.
  destruct (hi <? 0) eqn:E; lia.
Qed.

Lemma pad_sizes_nonneg (d : Z) :
  0 <= d -> 0 <= pad_before d /\ 0 <= pad_after d.
Proof.
  intros H. unfold pad_after, pad_before.
  rewrite (Z.quot_div_nonneg d 2) by lia.
  pose proof (Z.div_mod d 2 ltac:(lia)).
  pose proof (Z.mod_pos_bound d 2 ltac:(lia)). lia.
Qed.

(** Once the resampled image has content, [recrop] returns for every
    padding that is not negative: the crop is smaller than the canvas. *)
Lemma recrop_returns (img : ndarray) (img_scale : array Z) (min_pad : Z)
    (e : Z * Z * Z * Z) :
  content_extent (U8 img_scale) = Ok e ->
  0 <= min_pad -> (1 <= height img)%nat -> (1 <= width img)%nat ->
  exists out, recrop img img_scale min_pad = Ok out.
Proof.
  intros Hext Hpad Hh Hw. unfold recrop. rewrite Hext. cbn [rbind].
  destruct e as [[[y_min y_max] x_min] x_max].
  destruct (too_large _ _ _ _ _ _ _); [eauto|].
  unfold content_extent in Hext.
  apply rbind_ok in Hext. destruct Hext as (y0 & _ & Hext).
  apply rbind_ok in Hext. destruct Hext as (y1 & Hy1 & Hext).
  apply rbind_ok in Hext. destruct Hext as (x0 & _ & Hext).
  apply rbind_ok in Hext. destruct Hext as (x1 & Hx1 & Hext).
  inversion Hext; subst y0 y1 x0 x1. clear Hext.
  apply last_item_np_where in Hy1, Hx1.
  unfold repad, crop_extent, clip_extent. cbn [crop nrows ncols].
  set (dh := Z.of_nat (height img) - Z.of_nat (slice_len _ _ _)).
  set (dw := Z.of_nat (width img) - Z.of_nat (slice_len _ _ _)).
  assert (0 <= dh) as Hdh.
  { subst dh.
    pose proof (slice_len_le (nrows img_scale) (Z.max (y_min - min_pad) 0)
                  (Z.min (y_max + min_pad) (Z.of_nat (height img) - 1))
                  ltac:(lia)).
    lia. }
  assert (0 <= dw) as Hdw.
  { subst dw.
    pose proof (slice_len_le (ncols img_scale) (Z.max (x_min - min_pad) 0)
                  (Z.min (x_max + min_pad) (Z.of_nat (width img) - 1))
                  ltac:(lia)).
    lia. }
  destruct (pad_sizes_nonneg dh Hdh) as [Hu Hd].
  destruct (pad_sizes_nonneg dw Hdw) as [Hl Hr].
  unfold np_pad.
  replace (pad_before dh <? 0) with false by (symmetry; lia).
  replace (pad_after dh <? 0) with false by (symmetry; lia).
  replace (pad_before dw <? 0) with false by (symmetry; lia).
  replace (pad_after dw <? 0) with false by (symmetry; lia).
  cbn [orb rbind]. eauto.
Qed.

Lemma random_scale_returns (img : ndarray) (min_scale max_scale : float)
    (min_pad : Z) (s s1 : rng) (img_scale : array Z) (e : Z * Z * Z * Z) :
  scale_and_resample img min_scale max_scale s = Ok (img_scale, s1) ->
  content_extent (U8 img_scale) = Ok e ->
  0 <= min_pad -> (1 <= height img)%nat -> (1 <= width img)%nat ->
  exists out, random_scale img min_scale max_scale min_pad s = Ok (out, s1).
Proof.
  intros Hres Hext Hpad Hh Hw.
  destruct (recrop_returns img img_scale min_pad e Hext Hpad Hh Hw)
    as [out Hout].
  exists out. unfold random_scale, bind. rewrite Hres.
  unfold lift. now rewrite Hout.
Qed.

End Returns.

Section ShapeInvariance.
Context {C : Collaborators}.

(** ** Shape invariance *)

Lemma set_channel_returns {A} (k : nat) (v : A) (a : array A) :
  (k < nchan a)%nat ->
  exists out, set_channel k v a = Ok out /\ same_shape a out.
Proof.
  intros Hk. unfold set_channel.
  replace (k <? nchan a)%nat with true by (symmetry; now apply Nat.ltb_lt).
  eexists. split; [reflexivity|]. repeat split.
Qed.

Lemma bind_lift_ok {A B} (r : result A) (a : A) (k : A -> M B) (s : rng) :
  r = Ok a -> bind (lift r) k s = k a s.
Proof. intros ->. reflexivity. Qed.

Lemma bind_draw {B} (f : rng -> float * rng) (k : float -> M B) (s : rng) :
  bind (draw f) k s = k (fst (f s)) (snd (f s)).
Proof. unfold bind, draw. now destruct (f s). Qed.

Lemma bind_ret {A B} (a : A) (k : A -> M B) (s : rng) :
  bind (ret a) k s = k a s.
Proof. reflexivity. Qed.

(** [random_hue] returns on a canvas of three channels whenever the two
    colour conversions accept arrays of three channels. *)
Lemma random_hue_returns {COk : CollaboratorsOk C} (img : ndarray) (s : rng) :
  channels img = 3%nat ->
  (forall x, nchan x = 3%nat -> exists y, rgb2hsv x = Ok y) ->
  (forall x, nchan x = 3%nat -> exists y, hsv2rgb x = Ok y) ->
  exists out s', random_hue img s = Ok (out, s').
Proof.
  intros Hc Hto Hfrom.
  assert (nchan (astype_u8 img) = 3%nat
          /\ nrows (astype_u8 img) = height img
          /\ ncols (astype_u8 img) = width img) as (Hc0 & Hh0 & Hw0).
  { destruct img; cbn in *; auto. }
  destruct (Hto (astype_u8 img) Hc0) as [hsv0 E0].
  pose proof (rgb2hsv_shape _ _ E0) as (Sh0 & Sw0 & Sc0).
  set (bg := bg_value_of img).
  assert (forall hue sat val t, exists out,
    bind (lift (set_channel 0 hue hsv0)) (fun img_hsv =>
    bind (lift (set_channel 1 sat img_hsv)) (fun img_hsv =>
    bind (lift (set_channel 2 val img_hsv)) (fun img_hsv =>
    let img_hsv :=
      amap (fun v => if PrimFloat.ltb 1 v then 1%float else v) img_hsv in
    let img_hsv :=
      amap (fun v => if PrimFloat.ltb v 0 then 0%float else v) img_hsv in
    bind (lift (hsv2rgb img_hsv)) (fun img_rgb =>
    bind (lift (mask_assign (cell_is bg img) img_rgb (py_float bg)))
         (fun img_rgb =>
    ret (F64 (amap (fun v => PrimFloat.mul v 255) img_rgb))))))) t
    = Ok (out, t)) as Htail.
  { intros hue sat val t.
    destruct (set_channel_returns 0 hue hsv0 ltac:(lia))
      as (h1 & E1 & (S1h & S1w & S1c)).
    rewrite (bind_lift_ok _ _ _ _ E1).
    destruct (set_channel_returns 1 sat h1 ltac:(lia))
      as (h2 & E2 & (S2h & S2w & S2c)).
    rewrite (bind_lift_ok _ _ _ _ E2).
    destruct (set_channel_returns 2 val h2 ltac:(lia))
      as (h3 & E3 & (S3h & S3w & S3c)).
    rewrite (bind_lift_ok _ _ _ _ E3). cbv zeta.
    match goal with |- context [hsv2rgb ?f] => set (flat := f) end.
    destruct (Hfrom flat ltac:(subst flat; cbn [amap nchan]; lia))
      as [rgb Ergb].
    rewrite (bind_lift_ok _ _ _ _ Ergb).
    pose proof (hsv2rgb_shape _ _ Ergb) as (Rh & Rw & Rc).
    subst flat. cbn [amap nrows ncols nchan] in Rh, Rw, Rc.
    assert (nrows (cell_is bg img) = height img
            /\ ncols (cell_is bg img) = width img
            /\ nchan (cell_is bg img) = channels img) as (Mh & Mw & Mc).
    { destruct img; cbn; auto. }
    assert (exists m, mask_assign (cell_is bg img) rgb (py_float bg) = Ok m)
      as [m Em].
    { unfold mask_assign, shape_eqb.
      replace (Nat.eqb (nrows (cell_is bg img)) (nrows rgb)) with true
        by (symmetry; apply Nat.eqb_eq; lia).
      replace (Nat.eqb (ncols (cell_is bg img)) (ncols rgb)) with true
        by (symmetry; apply Nat.eqb_eq; lia).
      replace (Nat.eqb (nchan (cell_is bg img)) (nchan rgb)) with true
        by (symmetry; apply Nat.eqb_eq; lia).
      cbn [andb]. eauto. }
    rewrite (bind_lift_ok _ _ _ _ Em). unfold ret. eauto. }
  unfold random_hue. fold bg.
  rewrite (bind_lift_ok _ _ _ _ E0).
  rewrite bind_draw. rewrite bind_draw. rewrite bind_draw.
  destruct (bg =? 0).
  - rewrite bind_draw.
    destruct (Htail (fst (uniform 0 1 s))
                (fst (uniform 0 1 (snd (uniform 0 1 s))))
                (fst (uniform 0.3 1
                   (snd (uniform 0 0.7 (snd (uniform 0 1 (snd (uniform 0 1 s))))))))
                (snd (uniform 0.3 1
                   (snd (uniform 0 0.7 (snd (uniform 0 1 (snd (uniform 0 1 s)))))))))
      as [out Hout].
    eauto.
  - rewrite bind_ret.
    destruct (Htail (fst (uniform 0 1 s))
                (fst (uniform 0 1 (snd (uniform 0 1 s))))
                (fst (uniform 0 0.7 (snd (uniform 0 1 (snd (uniform 0 1 s))))))
                (snd (uniform 0 0.7 (snd (uniform 0 1 (snd (uniform 0 1 s)))))))
      as [out Hout].
    eauto.
Qed.

(** C6 (amended). Each of the five transforms returns an array of the
    height and the width of its input whenever it returns, and it does
    return in these cases: [invert_img] always; [random_rotate] whenever
    the rotation and the resize return; [random_hue] on a canvas of three
    channels whenever the colour conversions accept such arrays;
    [random_scale] on a well-formed canvas whenever the resampling
    succeeded, the resampled image has content and [min_pad] is not
    negative, on the fallback and on the padding path; [random_transform]
    on the identity path and whenever its gated stages return. *)
Theorem shape_invariance {COk : CollaboratorsOk C} :
  (forall img original invert scale min_scale max_scale hue rotate angle_std s,
      (PrimFloat.ltb (fst (uniform 0 1 s)) original = true ->
       exists out,
         random_transform img original invert scale min_scale max_scale hue
                          rotate angle_std s = Ok (out, snd (uniform 0 1 s))
         /\ height out = height img /\ width out = width img)
      /\ (forall img_trf s4,
            PrimFloat.ltb (fst (uniform 0 1 s)) original = false ->
            gated_stages img scale min_scale max_scale hue rotate angle_std
                         (snd (uniform 0 1 s)) = Ok (img_trf, s4) ->
            exists out,
              random_transform img original invert scale min_scale max_scale
                               hue rotate angle_std s
              = Ok (out, snd (uniform 0 1 s4))
              /\ height out = height img /\ width out = width img)
      /\ (forall out s',
            random_transform img original invert scale min_scale max_scale
                             hue rotate angle_std s = Ok (out, s') ->
            height out = height img /\ width out = width img))
  /\ (forall img min_scale max_scale min_pad s,
        (forall img_scale s1 e,
           wf_ndarray img ->
           scale_and_resample img min_scale max_scale s = Ok (img_scale, s1) ->
           content_extent (U8 img_scale) = Ok e ->
           0 <= min_pad ->
           exists out,
             random_scale img min_scale max_scale min_pad s = Ok (out, s1)
             /\ height out = height img /\ width out = width img)
        /\ (forall out s',
              random_scale img min_scale max_scale min_pad s = Ok (out, s') ->
              height out = height img /\ width out = width img))
  /\ (forall img s,
        (channels img = 3%nat ->
         (forall x, nchan x = 3%nat -> exists y, rgb2hsv x = Ok y) ->
         (forall x, nchan x = 3%nat -> exists y, hsv2rgb x = Ok y) ->
         exists out s',
           random_hue img s = Ok (out, s')
           /\ height out = height img /\ width out = width img)
        /\ (forall out s',
              random_hue img s = Ok (out, s') ->
              height out = height img /\ width out = width img))
  /\ (forall img angle_std s,
        (forall rotated r,
           ndimage_rotate img (PrimFloat.mul angle_std (fst (randn s)))
             = Ok rotated ->
           imresize rotated (ToShape (height img) (width img)) = Ok r ->
           exists out,
             random_rotate img angle_std s = Ok (out, snd (randn s))
             /\ height out = height img /\ width out = width img)
        /\ (forall out s',
              random_rotate img angle_std s = Ok (out, s') ->
              height out = height img /\ width out = width img))
  /\ (forall img,
        height (invert_img img) = height img
        /\ width (invert_img img) = width img).
Proof.
  assert (forall img original invert scale min_scale max_scale hue rotate
                 angle_std s out s',
            random_transform img original invert scale min_scale max_scale hue
                             rotate angle_std s = Ok (out, s') ->
            height out = height img /\ width out = width img) as Htransform.
  { intros img original invert scale min_scale max_scale hue rotate angle_std
           s out s' H.
    unfold random_transform in H.
    apply bind_ok in H. destruct H as (d & s1 & _ & H).
    destruct (PrimFloat.ltb d original).
    { apply ret_ok in H. destruct H as [-> _]. apply astype_u8_shape. }
    apply bind_ok in H. destruct H as (img_trf & s4 & Hstages & H).
    apply gated_stages_shape in Hstages. destruct Hstages as [Eh Ew].
    unfold invert_or_clean in H.
    apply bind_ok in H. destruct H as (d4 & s5 & _ & H).
    destruct (PrimFloat.ltb d4 invert);
      apply ret_ok in H; destruct H as [-> _].
    + destruct (snap_above_200_shape (invert_img img_trf)) as (-> & -> & _).
      destruct (invert_img_shape img_trf) as (-> & -> & _). auto.
    + destruct (snap_below_55_shape img_trf) as (-> & -> & _). auto. }
  split; [|split; [|split; [|split]]].
  - intros img original invert scale min_scale max_scale hue rotate angle_std s.
    split; [|split].
    + intros Hd.
      assert (random_transform img original invert scale min_scale max_scale
                hue rotate angle_std s
              = Ok (U8 (astype_u8 img), snd (uniform 0 1 s))) as Hrun.
      { unfold random_transform, bind, draw, ret.
        destruct (uniform 0 1 s) as [d s1]. cbn [fst snd] in *.
        now rewrite Hd. }
      eexists. split; [exact Hrun|]. eapply Htransform. exact Hrun.
    + intros img_trf s4 Hd Hstages.
      assert (exists out,
                random_transform img original invert scale min_scale max_scale
                  hue rotate angle_std s = Ok (out, snd (uniform 0 1 s4)))
        as [out Hrun].
      { unfold random_transform, bind, draw.
        destruct (uniform 0 1 s) as [d s1]. cbn [fst snd] in *.
        rewrite Hd, Hstages. unfold invert_or_clean, bind, draw, ret.
        destruct (uniform 0 1 s4) as [d4 s5]. cbn [fst snd].
        destruct (PrimFloat.ltb d4 invert); eauto. }
      exists out. split; [exact Hrun|]. eapply Htransform. exact Hrun.
    + apply Htransform.
  - intros img min_scale max_scale min_pad s. split.
    + intros img_scale s1 e Hwf Hres Hext Hpad.
      assert ((1 <= height img)%nat /\ (1 <= width img)%nat) as [Hh Hw].
      { unfold scale_and_resample in Hres.
        apply bind_ok in Hres. destruct Hres as (r1 & t1 & Hr1 & Hres).
        run_inv Hr1.
        apply bind_ok in Hres. destruct Hres as (r0 & t2 & _ & Hres).
        apply bind_ok in Hres. destruct Hres as (c1 & t3 & Hc1 & _).
        run_inv Hc1.
        apply last_item_np_where in Hr1, Hc1.
        assert (length (row_sum_ne0 img) = height img) as Lr.
        { destruct img as [a|a]; cbn [row_sum_ne0 wf_ndarray height] in *;
            unfold row_cells; rewrite !length_map; apply Hwf. }
        assert (length (col_sum_ne0 img) = width img) as Lc.
        { destruct img as [a|a]; cbn [col_sum_ne0 width]; unfold col_cells;
            now rewrite !length_map, length_seq. }
        lia. }
      destruct (recrop_returns img img_scale min_pad e Hext Hpad Hh Hw)
        as [out Hout].
      exists out. split.
      * unfold random_scale, bind. rewrite Hres. unfold lift. now rewrite Hout.
      * eapply recrop_shape. exact Hout.
    + intros out s' H. eapply random_scale_shape. exact H.
  - intros img s. split.
    + intros Hc Hto Hfrom.
      destruct (random_hue_returns img s Hc Hto Hfrom) as (out & s' & Hrun).
      exists out, s'. split; [exact Hrun|].
      apply random_hue_shape in Hrun. tauto.
    + intros out s' H. apply random_hue_shape in H. tauto.
  - intros img angle_std s. split.
    + intros rotated r Hrot Hres.
      assert (random_rotate img angle_std s = Ok (U8 r, snd (randn s)))
        as Hrun.
      { unfold random_rotate, bind, draw, lift, ret.
        destruct (randn s) as [z s1]. cbn [fst snd] in *.
        now rewrite Hrot, Hres. }
      eexists. split; [exact Hrun|].
      apply random_rotate_shape in Hrun. tauto.
    + intros out s' H. apply random_rotate_shape in H. tauto.
  - intros img. pose proof (invert_img_shape img). tauto.
Qed.

End ShapeInvariance.

(** ** The executable collaborators keep the contract *)

Lemma sim_build_wf {A} (h w c : nat) (f : nat -> nat -> nat -> A) :
  wf (Sim.build h w c f).
Proof.
  unfold wf, wf_grid, Sim.build. cbn [nrows ncols nchan cells]. split.
  - now rewrite length_map, length_seq.
  - apply Forall_map, Forall_forall. intros i _. split.
    + now rewrite length_map, length_seq.
    + apply Forall_map, Forall_forall. intros j _.
      now rewrite length_map, length_seq.
Qed.

Lemma sim_build_elements {A} (P : A -> Prop) (h w c : nat)
    (f : nat -> nat -> nat -> A) :
  (forall i j k, P (f i j k)) -> Forall P (elements (Sim.build h w c f)).
Proof.
  intros H. apply Forall_forall. intros v Hv.
  apply in_elements in Hv. destruct Hv as (row & px & Hrow & Hpx & Hv).
  unfold Sim.build in Hrow. cbn [cells] in Hrow.
  apply in_map_iff in Hrow. destruct Hrow as (i & <- & _).
  apply in_map_iff in Hpx. destruct Hpx as (j & <- & _).
  apply in_map_iff in Hv. destruct Hv as (k & <- & _). apply H.
Qed.

Lemma sim_unit_range (b : nat) :
  PrimFloat.ltb (PrimFloat.add 0 (PrimFloat.mul (PrimFloat.sub 1 0) (Sim.unit_of b))) 0
    = false
  /\ PrimFloat.ltb (PrimFloat.add 0 (PrimFloat.mul (PrimFloat.sub 1 0) (Sim.unit_of b))) 1
    = true.
Proof.
  set (ok := fun r : nat =>
    let u := PrimFloat.div (py_float (Z.of_nat r)) 256 in
    let d := PrimFloat.add 0 (PrimFloat.mul (PrimFloat.sub 1 0) u) in
    (negb (PrimFloat.ltb d 0) && PrimFloat.ltb d 1)%bool).
  assert (forallb ok (seq 0 256) = true) as Hall by (vm_compute; reflexivity).
  rewrite forallb_forall in Hall.
  assert (In (b mod 256)%nat (seq 0 256)) as Hin.
  { apply in_seq. pose proof (Nat.mod_upper_bound b 256). lia. }
  specialize (Hall _ Hin). unfold ok in Hall. cbv zeta in Hall.
  apply andb_true_iff in Hall. destruct Hall as [H0 H1].
  apply negb_true_iff in H0. unfold Sim.unit_of. auto.
Qed.

Lemma sim_contract : CollaboratorsOk Sim.collaborators.
Proof.
  constructor.
  - intros s. cbn [uniform Sim.collaborators]. unfold Sim.uniform.
    destruct (Sim.next s) as [b s1]. cbn [fst]. apply sim_unit_range.
  - intros img sz out H. cbn [imresize Sim.collaborators] in H.
    assert (forall a h w, wf_u8 (Sim.nearest a h w)) as Hnear.
    { intros a h w. split; [apply sim_build_wf|].
      apply sim_build_elements. intros i j k. unfold in_u8.
      apply Z.mod_pos_bound. lia. }
    unfold Sim.imresize in H. destruct sz as [f|h w].
    + destruct (_ || _)%bool; [discriminate|].
      apply ok_inj in H. rewrite <- H. apply Hnear.
    + apply ok_inj in H. rewrite <- H. apply Hnear.
  - intros img h w out H. cbn [imresize Sim.collaborators] in H.
    apply ok_inj in H. rewrite <- H. split; reflexivity.
  - intros a out H. cbn [rgb2hsv Sim.collaborators] in H.
    unfold Sim.rgb2hsv in H. destruct (Nat.eqb (nchan a) 3) eqn:E; [|discriminate].
    apply Nat.eqb_eq in E. inversion H. unfold same_shape. cbn. auto.
  - intros a out H. cbn [hsv2rgb Sim.collaborators] in H.
    unfold Sim.hsv2rgb in H. destruct (Nat.eqb (nchan a) 3) eqn:E; [|discriminate].
    apply Nat.eqb_eq in E. inversion H. unfold same_shape. cbn. auto.
  - intros a out H. cbn [hsv2rgb Sim.collaborators] in H.
    unfold Sim.hsv2rgb in H. destruct (Nat.eqb (nchan a) 3); [|discriminate].
    inversion H. apply sim_build_wf.
Qed.

(** ** The theorems on concrete canvases

    Each run below uses the executable collaborators [Sim]: the tape gives
    the draws in the order in which the run reads them. *)

Lemma invert_img_involutive_witness :
  invert_img (invert_img (U8 Sim.dark_block)) = U8 Sim.dark_block.
Proof.
  destruct (invert_img_involutive Sim.dark_block) as (_ & _ & _ & _ & _ & _ & H).
  - apply in_u8_check. vm_compute. reflexivity.
  - exact H.
Defined.

(** [original = 1.0]: the canvas comes back after one draw. *)
Lemma identity_gate_witness :
  random_transform (C := Sim.collaborators) (U8 Sim.dark_block)
                   1 0.5 1 0.7 1.43 1 1 5 [200; 7; 7]%nat
  = Ok (U8 Sim.dark_block, [7; 7]%nat).
Proof.
  destruct (identity_gate (C := Sim.collaborators) (U8 Sim.dark_block)
              1 0.5 1 0.7 1.43 1 1 5 [200; 7; 7]%nat) as [_ H].
  destruct (H sim_contract eq_refl) as [Hrun _]. exact Hrun.
Defined.

(** Scale by 1, recolor, rotate by 0 degrees, invert. *)
Lemma cleanup_always_runs_witness :
  exists out s',
    random_transform (C := Sim.collaborators) (U8 Sim.dark_block)
                     0.2 0.5 1 1 1 1 1 5
                     [128; 0; 0; 0; 0; 0; 128; 128; 0; 128; 0]%nat
    = Ok (out, s')
    /\ none_strictly_between 200 255 out.
Proof.
  set (tape := [128; 0; 0; 0; 0; 0; 128; 128; 0; 128; 0]%nat).
  assert (PrimFloat.ltb (fst (@uniform Sim.collaborators 0 1 tape)) 0.2
          = false) as Hgate by (vm_compute; reflexivity).
  destruct (gated_stages (C := Sim.collaborators) (U8 Sim.dark_block)
              1 1 1 1 1 5 (snd (@uniform Sim.collaborators 0 1 tape)))
    as [[img_trf s4]|e] eqn:Hstages; [|vm_compute in Hstages; discriminate].
  destruct (proj1 (cleanup_always_runs (C := Sim.collaborators)
                     (U8 Sim.dark_block) 0.2 0.5 1 1 1 1 1 5 tape Hgate)
              img_trf s4 Hstages) as (out & Hrun & Hinv & _).
  exists out, (snd (@uniform Sim.collaborators 0 1 s4)).
  split; [exact Hrun|]. apply Hinv.
  vm_compute in Hstages. apply ok_inj in Hstages.
  apply (f_equal snd) in Hstages. cbn [snd] in Hstages. subst s4.
  vm_compute. reflexivity.
Defined.

(** One bright pixel, the identity gate closed and the scale gate open:
    the run raises in [random_scale] and no cleanup is applied. *)
Lemma cleanup_skipped_when_a_stage_raises :
  PrimFloat.ltb (fst (@uniform Sim.collaborators 0 1 [0; 0]%nat)) 0 = false
  /\ ~ (exists out s',
          random_transform (C := Sim.collaborators) (U8 Sim.one_pixel)
                           0 0.5 1 0.7 1.43 1 1 5 [0; 0]%nat = Ok (out, s')).
Proof.
  split; [vm_compute; reflexivity|].
  intros (out & s' & H). vm_compute in H. discriminate.
Qed.

(** One bright pixel: one content row and one content column. *)
Lemma one_row_or_column_divides_by_zero_witness :
  random_scale (C := Sim.collaborators) (U8 Sim.one_pixel) 0.7 1.43 0 [0%nat]
  = Raise ZeroDivisionError.
Proof.
  apply (proj1 (one_row_or_column_divides_by_zero (C := Sim.collaborators)
                  (U8 Sim.one_pixel) 0.7 1.43 0 [0%nat]) 1 1 1 1);
    try (vm_compute; reflexivity).
  left. reflexivity.
Defined.

(** A canvas that is content all over, with one pixel of padding asked for. *)
Lemma fallback_returns_input_witness :
  random_scale (C := Sim.collaborators) (U8 Sim.full_block) 1 1 1 [0%nat]
  = Ok (U8 Sim.full_block, []).
Proof.
  apply (fallback_returns_input (C := Sim.collaborators) (U8 Sim.full_block)
           1 1 1 [0%nat] [] (Sim.nearest Sim.full_block 4 4) 0 3 0 3).
  - vm_compute. reflexivity.
  - vm_compute. reflexivity.
  - left. vm_compute. reflexivity.
Defined.

(** The 2 x 2 block at scale 1: the crop is 1 x 1, the deficit 5 is split
    into 2 before and 3 after. *)
Lemma repad_splits_deficit_witness :
  exists up down left right : nat,
    (up <= down <= up + 1)%nat /\ (left <= right <= left + 1)%nat
    /\ random_scale (C := Sim.collaborators) (U8 Sim.dark_block) 1 1 0 [0%nat]
       = Ok (U8 (pad_cells 0 (crop (Sim.nearest Sim.dark_block 6 6) 2 3 2 3)
                           up down left right), []).
Proof.
  set (img_scale := Sim.nearest (Sim.as_u8 (U8 Sim.dark_block)) 6 6).
  assert (scale_and_resample (C := Sim.collaborators) (U8 Sim.dark_block) 1 1
            [0%nat] = Ok (img_scale, [])) as Hres by (vm_compute; reflexivity).
  assert (content_extent (C := Sim.collaborators) (U8 img_scale)
          = Ok (2, 3, 2, 3)) as Hext by (vm_compute; reflexivity).
  destruct (random_scale (C := Sim.collaborators) (U8 Sim.dark_block) 1 1 0
              [0%nat]) as [[out s']|e] eqn:Hrun;
    [|vm_compute in Hrun; discriminate].
  assert (s' = []) as -> by (vm_compute in Hrun; now inversion Hrun).
  destruct (repad_splits_deficit (C := Sim.collaborators) (COk := sim_contract)
              (U8 Sim.dark_block) 1 1 0 [0%nat] [] img_scale 2 3 2 3 out
              Hres Hext eq_refl Hrun)
    as (up & down & left & right & _ & _ & _ & (Hv & Hh) & _ & _ & Hout & _).
  exists up, down, left, right. split; [exact Hv|]. split; [exact Hh|].
  rewrite Hout. vm_compute. reflexivity.
Defined.

(** The same run: the extent is the rows 2..3 and the columns 2..3, the
    crop has one row and one column, and the cell (3, 3) is not in it. *)
Lemma crop_drops_last_row_and_column_witness :
  nrows (crop (Sim.nearest Sim.dark_block 6 6) 2 3 2 3) = 1%nat
  /\ ncols (crop (Sim.nearest Sim.dark_block 6 6) 2 3 2 3) = 1%nat
  /\ aget (Sim.nearest Sim.dark_block 6 6) 3 3 0 = Some 255
  /\ aget (crop (Sim.nearest Sim.dark_block 6 6) 2 3 2 3) 1 1 0 = None.
Proof.
  set (img_scale := Sim.nearest (Sim.as_u8 (U8 Sim.dark_block)) 6 6).
  assert (scale_and_resample (C := Sim.collaborators) (U8 Sim.dark_block) 1 1
            [0%nat] = Ok (img_scale, [])) as Hres by (vm_compute; reflexivity).
  assert (content_extent (C := Sim.collaborators) (U8 img_scale)
          = Ok (2, 3, 2, 3)) as Hext by (vm_compute; reflexivity).
  destruct (random_scale (C := Sim.collaborators) (U8 Sim.dark_block) 1 1 0
              [0%nat]) as [[out s']|e] eqn:Hrun;
    [|vm_compute in Hrun; discriminate].
  assert (s' = []) as -> by (vm_compute in Hrun; now inversion Hrun).
  destruct (crop_drops_last_row_and_column (C := Sim.collaborators)
              (COk := sim_contract) (U8 Sim.dark_block) 1 1 0 [0%nat] []
              img_scale 2 3 2 3 2 3 2 3 out Hres Hext eq_refl eq_refl
              ltac:(vm_compute; intuition discriminate)
              ltac:(vm_compute; intuition discriminate) Hrun)
    as (Hrows & Hcols & _ & Hlast & _).
  split; [vm_compute; reflexivity|]. split; [vm_compute; reflexivity|].
  split; [vm_compute; reflexivity|].
  exact (Hlast 1%nat 1%nat 0%nat (or_introl eq_refl)).
Defined.

(** A whole run of the pipeline on the dark block: the stages return, so
    the run returns, and it keeps the 6 x 6 shape. *)
Lemma shape_invariance_witness :
  exists out s',
    random_transform (C := Sim.collaborators) (U8 Sim.dark_block)
                     0.2 0.5 1 1 1 1 1 5
                     [128; 0; 0; 0; 0; 0; 128; 128; 0; 128; 0]%nat
    = Ok (out, s')
    /\ height out = 6%nat /\ width out = 6%nat.
Proof.
  set (tape := [128; 0; 0; 0; 0; 0; 128; 128; 0; 128; 0]%nat).
  assert (PrimFloat.ltb (fst (@uniform Sim.collaborators 0 1 tape)) 0.2
          = false) as Hgate by (vm_compute; reflexivity).
  destruct (gated_stages (C := Sim.collaborators) (U8 Sim.dark_block)
              1 1 1 1 1 5 (snd (@uniform Sim.collaborators 0 1 tape)))
    as [[img_trf s4]|e] eqn:Hstages; [|vm_compute in Hstages; discriminate].
  destruct (proj1 (proj2 (proj1 (shape_invariance (C := Sim.collaborators)
                                   (COk := sim_contract))
                            (U8 Sim.dark_block) 0.2%float 0.5%float 1%float
                            1%float 1%float 1%float 1%float 5%float tape))
              img_trf s4 Hgate Hstages) as (out & Hrun & Hh & Hw).
  exists out, (snd (@uniform Sim.collaborators 0 1 s4)).
  split; [exact Hrun|]. split; [exact Hh|exact Hw].
Defined.

(** A well-formed canvas with content (one bright pixel) on which neither
    [random_scale] nor, with the scale gate open, [random_transform]
    returns a canvas. *)
Lemma one_pixel_canvas_gets_nothing_back :
  canvas (U8 Sim.one_pixel)
  /\ content_extent (C := Sim.collaborators) (U8 Sim.one_pixel)
     = Ok (1, 1, 1, 1)
  /\ ~ (exists out s',
          random_scale (C := Sim.collaborators) (U8 Sim.one_pixel)
                       0.7 1.43 0 [0%nat] = Ok (out, s'))
  /\ ~ (exists out s',
          random_transform (C := Sim.collaborators) (U8 Sim.one_pixel)
                           0 0.5 1 0.7 1.43 1 1 5 [0; 0]%nat = Ok (out, s')).
Proof.
  split; [|split; [|split]].
  - split; [|reflexivity]. split; [apply sim_build_wf|].
    apply in_u8_check. vm_compute. reflexivity.
  - vm_compute. reflexivity.
  - intros (out & s' & H). vm_compute in H. discriminate.
  - intros (out & s' & H). vm_compute in H. discriminate.
Qed.

(** A light canvas: the white pixel comes back as 65025. *)
Lemma random_hue_background_witness :
  exists o,
    random_hue (C := Sim.collaborators) (U8 Sim.light_pair) [0; 0; 128]%nat
    = Ok (F64 o, [])
    /\ aget Sim.light_pair 0 1 0 = Some 255
    /\ aget o 0 1 0 = Some 65025%float.
Proof.
  destruct (random_hue (C := Sim.collaborators) (U8 Sim.light_pair)
              [0; 0; 128]%nat) as [[out s']|e] eqn:Hrun;
    [|vm_compute in Hrun; discriminate].
  assert (s' = []) as -> by (vm_compute in Hrun; now inversion Hrun).
  destruct (random_hue_background (C := Sim.collaborators) (COk := sim_contract)
              Sim.light_pair [0; 0; 128]%nat [] out
              (sim_build_wf _ _ _ _) Hrun) as (o & -> & Hbg).
  exists o. split; [reflexivity|]. split; [reflexivity|].
  exact (Hbg 0%nat 1%nat 0%nat eq_refl).
Defined.

(** Hue without rotation on an 8-bit canvas: the output is float64. *)
Lemma transform_returns_float64_witness :
  exists out s',
    random_transform (C := Sim.collaborators) (U8 Sim.light_pair)
                     0 0.5 0 1 1 1 0 5 [0; 0; 0; 0; 0; 128; 0; 200]%nat
    = Ok (out, s')
    /\ dtype_of (U8 Sim.light_pair) = UInt8
    /\ dtype_of out = Float64.
Proof.
  set (tape := [0; 0; 0; 0; 0; 128; 0; 200]%nat).
  destruct (random_transform (C := Sim.collaborators) (U8 Sim.light_pair)
              0 0.5 0 1 1 1 0 5 tape)
    as [[out s']|e] eqn:Hrun; [|vm_compute in Hrun; discriminate].
  exists out, s'. split; [reflexivity|]. split; [reflexivity|].
  exact (transform_returns_float64 (C := Sim.collaborators)
           (COk := sim_contract) (U8 Sim.light_pair) 0.5 0 1 1 5 tape s' out
           Hrun).
Defined.

(** * Further properties *)

(** ** gray2rgb *)

Lemma zipw_diag {A B} (f : A -> A -> B) (l : list A) :
  zipw f l l = map (fun x => f x x) l.
Proof. induction l as [|x l IH]; cbn; [reflexivity|now rewrite IH]. Qed.

Lemma zipw_map_diag {A B D} (f : B -> A -> D) (g : A -> B) (l : list A) :
  zipw f (map g l) l = map (fun x => f (g x) x) l.
Proof. induction l as [|x l IH]; cbn; [reflexivity|now rewrite IH]. Qed.

Lemma gray2rgb_cells {A} (img : array2 A) :
  gray2rgb img
  = Ok (mkArray (nrows2 img) (ncols2 img) 3
                (map (map (fun v => [v; v; v])) (cells2 img))).
Proof.
  unfold gray2rgb, concatenate_axis2, reshape_hw1. cbn [nrows ncols nchan cells].
  rewrite !Nat.eqb_refl. cbn [andb]. do 2 f_equal.
  rewrite zipw_diag, zipw_map_diag, map_map.
  apply map_ext. intros row.
  rewrite zipw_diag, zipw_map_diag, map_map. reflexivity.
Qed.

(** X1. [gray2rgb] never raises: the three copies always agree in shape.
    Its result has the height and the width of the gray image and three
    channels, the cell (i, j, k) is the gray cell (i, j) for each of the
    channels k = 0, 1, 2, and a well-formed gray image gives a well-formed
    array; an 8-bit gray image gives a canvas. *)
Theorem gray2rgb_spec {A} (img : array2 A) :
  exists out,
    gray2rgb img = Ok out
    /\ nrows out = nrows2 img /\ ncols out = ncols2 img /\ nchan out = 3%nat
    /\ (forall i j k,
          aget out i j k = if (k <? 3)%nat then aget2 img i j else None)
    /\ (wf2 img -> wf out)
    /\ (forall P : A -> Prop,
          Forall (Forall P) (cells2 img) -> Forall P (elements out)).
Proof.
  eexists. split; [apply gray2rgb_cells|].
  cbn [nrows ncols nchan]. repeat (split; [reflexivity|]). split; [|split].
  - intros i j k. unfold aget, aget2. cbn [cells].
    rewrite nth_error_map.
    destruct (nth_error (cells2 img) i) as [row|]; cbn [option_map].
    2:{ now destruct (k <? 3)%nat. }
    rewrite nth_error_map.
    destruct (nth_error row j) as [v|]; cbn [option_map].
    2:{ now destruct (k <? 3)%nat. }
    destruct k as [|[|[|k]]]; cbn; try reflexivity.
    now destruct k.
  - intros [Hlen Hrows]. split; cbn [nrows ncols nchan cells].
    + now rewrite length_map.
    + apply Forall_map. eapply Forall_impl; [|exact Hrows].
      intros row Hw. split; [now rewrite length_map|].
      apply Forall_map, Forall_forall. intros v _. reflexivity.
  - intros P HP. apply Forall_forall. intros v Hv.
    apply in_elements in Hv. destruct Hv as (row & px & Hrow & Hpx & Hv).
    cbn [cells] in Hrow. apply in_map_iff in Hrow.
    destruct Hrow as (grow & <- & Hgrow).
    apply in_map_iff in Hpx. destruct Hpx as (g & <- & Hg).
    rewrite Forall_forall in HP. specialize (HP grow Hgrow).
    rewrite Forall_forall in HP. specialize (HP g Hg).
    destruct Hv as [<-|[<-|[<-|[]]]]; exact HP.
Qed.

(** ** The content extent is the bounding box of the content *)

Lemma in_np_where_from (flags : list bool) : forall i x,
  In x (np_where_from i flags) <->
  i <= x /\ nth_error flags (Z.to_nat (x - i)) = Some true.
Proof.
  induction flags as [|f rest IH]; intros i x.
  - cbn. split; [tauto|]. intros [_ H]. now destruct (Z.to_nat (x - i)).
  - assert (In x (np_where_from (i + 1) rest) <->
            i < x /\ nth_error (f :: rest) (Z.to_nat (x - i)) = Some true) as Hrest.
    { rewrite IH. split.
      - intros [Hle H]. split; [lia|].
        replace (Z.to_nat (x - i)) with (S (Z.to_nat (x - (i + 1)))) by lia.
        exact H.
      - intros [Hlt H]. split; [lia|].
        replace (Z.to_nat (x - i)) with (S (Z.to_nat (x - (i + 1)))) in H by lia.
        exact H. }
    cbn [np_where_from]. destruct f.
    + cbn [In]. rewrite Hrest. split.
      * intros [<- | [Hlt H]]; [|split; [lia|exact H]].
        split; [lia|]. now rewrite Z.sub_diag.
      * intros [Hle H]. destruct (Z.eq_dec i x) as [->|Hne]; [now left|].
        right. split; [lia|exact H].
    + rewrite Hrest. split.
      * intros [Hlt H]. split; [lia|exact H].
      * intros [Hle H]. destruct (Z.eq_dec i x) as [->|Hne].
        -- rewrite Z.sub_diag in H. discriminate.
        -- split; [lia|exact H].
Qed.

Lemma first_item_in {A} (l : list A) (a : A) : first_item l = Ok a -> In a l.
Proof. destruct l; cbn; [discriminate|]. intros H. inversion H. now left. Qed.

Lemma last_item_in {A} (l : list A) (b : A) : last_item l = Ok b -> In b l.
Proof.
  unfold last_item. destruct (rev l) as [|x t] eqn:E; [discriminate|].
  intros H. inversion H; subst x. apply in_rev. rewrite E. now left.
Qed.

Lemma first_item_least (flags : list bool) : forall i a x,
  first_item (np_where_from i flags) = Ok a ->
  In x (np_where_from i flags) -> a <= x.
Proof.
  induction flags as [|f rest IH]; intros i a x Ha Hx; [discriminate|].
  cbn [np_where_from] in *. destruct f.
  - inversion Ha; subst a.
    destruct Hx as [<-|Hx]; [lia|].
    apply in_np_where_from in Hx. lia.
  - eapply IH; eassumption.
Qed.

Lemma last_item_greatest (flags : list bool) : forall i b x,
  last_item (np_where_from i flags) = Ok b ->
  In x (np_where_from i flags) -> x <= b.
Proof.
  induction flags as [|f rest IH]; intros i b x Hb Hx; [discriminate|].
  cbn [np_where_from] in *. destruct f; [|eapply IH; eassumption].
  destruct (np_where_from (i + 1) rest) as [|y l] eqn:E.
  - inversion Hb; subst b. destruct Hx as [<-|[]]. lia.
  - rewrite last_item_cons, <- E in Hb.
    destruct Hx as [<-|Hx].
    + apply last_item_np_where in Hb. lia.
    + rewrite <- E in Hx. eapply IH; eassumption.
Qed.

(** The first and the last flagged index, and nothing flagged outside. *)
Lemma np_where_span (flags : list bool) (lo hi : Z) :
  first_item (np_where flags) = Ok lo ->
  last_item (np_where flags) = Ok hi ->
  0 <= lo <= hi /\ hi < Z.of_nat (length flags)
  /\ nth_error flags (Z.to_nat lo) = Some true
  /\ nth_error flags (Z.to_nat hi) = Some true
  /\ forall i, nth_error flags i = Some true -> lo <= Z.of_nat i <= hi.
Proof.
  unfold np_where. intros Hlo Hhi.
  pose proof (first_item_np_where _ _ _ _ Hlo Hhi) as H1.
  pose proof (last_item_np_where _ _ _ Hhi) as H2.
  pose proof (first_item_in _ _ Hlo) as Ilo. apply in_np_where_from in Ilo.
  pose proof (last_item_in _ _ Hhi) as Ihi. apply in_np_where_from in Ihi.
  rewrite Z.sub_0_r in Ilo, Ihi.
  split; [lia|]. split; [lia|]. split; [tauto|]. split; [tauto|].
  intros i Hi.
  assert (In (Z.of_nat i) (np_where_from 0 flags)) as Hin.
  { apply in_np_where_from. split; [lia|].
    now rewrite Z.sub_0_r, Nat2Z.id. }
  split.
  - eapply first_item_least; eassumption.
  - eapply last_item_greatest; eassumption.
Qed.

(** The sum of 8-bit cells that does not wrap is zero only for zeros. *)
Lemma fold_add_bounds (l : list Z) : forall acc,
  Forall in_u8 l ->
  acc <= fold_left Z.add l acc <= acc + 255 * Z.of_nat (length l)
  /\ (fold_left Z.add l acc = acc -> Forall (eq 0) l).
Proof.
  induction l as [|v l IH]; intros acc Hl; cbn [fold_left length].
  - split; [lia|]. intros _. constructor.
  - inversion Hl as [|? ? Hv Hl']; subst. unfold in_u8 in Hv.
    destruct (IH (acc + v) Hl') as [Hb Hz]. split; [lia|].
    intros E. assert (v = 0) as -> by lia.
    constructor; [reflexivity|]. apply Hz. rewrite Z.add_0_r in *. exact E.
Qed.

Lemma sum_u64_nonzero (l : list Z) :
  Forall in_u8 l -> 255 * Z.of_nat (length l) < 2 ^ 64 ->
  (negb (sum_u64 l =? 0) = true <-> exists v, In v l /\ v <> 0).
Proof.
  intros Hl Hlen. unfold sum_u64.
  destruct (fold_add_bounds l 0 Hl) as [Hb Hz].
  rewrite Z.mod_small by lia.
  rewrite negb_true_iff, Z.eqb_neq. split.
  - intros Hne.
    destruct (Forall_Exists_dec (fun v => v = 0) (fun v => Z.eq_dec v 0) l)
      as [Hall|Hex].
    + exfalso. apply Hne.
      clear - Hall. assert (forall acc, fold_left Z.add l acc = acc) as H.
      { induction Hall as [|v l Hv _ IH]; intros acc; cbn; [reflexivity|].
        subst v. now rewrite Z.add_0_r. }
      apply H.
    + apply Exists_exists in Hex. destruct Hex as (v & Hin & Hv). eauto.
  - intros (v & Hin & Hv) E. specialize (Hz E).
    rewrite Forall_forall in Hz. specialize (Hz v Hin). congruence.
Qed.

Lemma length_concat_uniform {A} (c : nat) (row : list (list A)) :
  Forall (fun px => length px = c) row ->
  length (concat row) = (length row * c)%nat.
Proof.
  induction 1 as [|px row Hpx _ IH]; cbn; [reflexivity|].
  rewrite length_app, IH, Hpx. lia.
Qed.

Lemma in_concat_cells {A} (row : list (list A)) (v : A) :
  In v (concat row) <->
  exists j px k, nth_error row j = Some px /\ nth_error px k = Some v.
Proof.
  rewrite in_concat. split.
  - intros (px & Hpx & Hv).
    apply In_nth_error in Hpx. destruct Hpx as [j Hj].
    apply In_nth_error in Hv. destruct Hv as [k Hk]. eauto.
  - intros (j & px & k & Hj & Hk). exists px.
    split; eapply nth_error_In; eassumption.
Qed.

Section Extent.
Context {C : Collaborators}.

Lemma row_flag_iff (a : array Z) (i : nat) :
  wf_u8 a -> 255 * Z.of_nat (ncols a * nchan a) < 2 ^ 64 ->
  (nth_error (row_sum_ne0 (U8 a)) i = Some true <->
   exists j k v, aget a i j k = Some v /\ v <> 0).
Proof.
  intros [[Hlen Hrows] Hu8] Hbound. cbn [row_sum_ne0]. unfold row_cells, aget.
  rewrite nth_error_map, nth_error_map.
  destruct (nth_error (cells a) i) as [row|] eqn:Ei; cbn [option_map].
  2:{ split; [discriminate|]. intros (j & k & v & H & _). discriminate. }
  pose proof (nth_error_In _ _ Ei) as Hin.
  rewrite Forall_forall in Hrows. destruct (Hrows row Hin) as [Hw Hpx].
  assert (Forall in_u8 (concat row)) as Hrow8.
  { unfold elements in Hu8. rewrite Forall_concat in Hu8.
    rewrite Forall_forall in Hu8. apply Forall_concat, Forall_forall.
    intros px Hpxin. apply Hu8. apply in_concat. eauto. }
  assert (255 * Z.of_nat (length (concat row)) < 2 ^ 64) as Hb.
  { rewrite (length_concat_uniform (nchan a)) by assumption. now rewrite Hw. }
  split.
  - intros H. inversion H as [H']. apply sum_u64_nonzero in H'; try assumption.
    destruct H' as (v & Hv & Hne). apply in_concat_cells in Hv.
    destruct Hv as (j & px & k & Hj & Hk). exists j, k, v. now rewrite Hj.
  - intros (j & k & v & H & Hne). f_equal.
    apply sum_u64_nonzero; try assumption. exists v. split; [|exact Hne].
    destruct (nth_error row j) as [px|] eqn:Ej; [|discriminate].
    apply in_concat_cells. eauto.
Qed.

Lemma in_column {A} (a : array A) (j : nat) (v : A) :
  In v (concat (map (fun row => nth j row []) (cells a))) <->
  exists i k, aget a i j k = Some v.
Proof.
  rewrite in_concat. unfold aget. split.
  - intros (px & Hpx & Hv). apply in_map_iff in Hpx.
    destruct Hpx as (row & <- & Hrow).
    apply In_nth_error in Hrow. destruct Hrow as [i Hi].
    destruct (nth_error row j) as [px|] eqn:Ej.
    + rewrite (nth_error_nth _ _ _ Ej) in Hv.
      apply In_nth_error in Hv. destruct Hv as [k Hk].
      exists i, k. now rewrite Hi, Ej.
    + apply nth_error_None in Ej. rewrite nth_overflow in Hv by assumption.
      destruct Hv.
  - intros (i & k & H).
    destruct (nth_error (cells a) i) as [row|] eqn:Ei; [|discriminate].
    destruct (nth_error row j) as [px|] eqn:Ej; [|discriminate].
    exists px. split; [|eapply nth_error_In; eassumption].
    apply in_map_iff. exists row.
    split; [apply (nth_error_nth _ _ _ Ej)|eapply nth_error_In; eassumption].
Qed.

Lemma col_flag_iff (a : array Z) (j : nat) :
  wf_u8 a -> 255 * Z.of_nat (nrows a * nchan a) < 2 ^ 64 ->
  (nth_error (col_sum_ne0 (U8 a)) j = Some true <->
   (j < ncols a)%nat /\ exists i k v, aget a i j k = Some v /\ v <> 0).
Proof.
  intros [[Hlen Hrows] Hu8] Hbound. cbn [col_sum_ne0]. unfold col_cells.
  rewrite nth_error_map, nth_error_map, nth_error_seq.
  destruct (j <? ncols a)%nat eqn:Ej; cbn [option_map].
  2:{ apply Nat.ltb_ge in Ej. split; [discriminate|]. intros [H _]. lia. }
  apply Nat.ltb_lt in Ej. cbn [Nat.add].
  set (col := concat (map (fun row => nth j row []) (cells a))).
  assert (Forall in_u8 col) as Hcol8.
  { apply Forall_forall. intros v Hv. apply in_column in Hv.
    destruct Hv as (i & k & Hv). rewrite Forall_forall in Hu8.
    eapply Hu8, aget_in_elements. exact Hv. }
  assert (length col = (nrows a * nchan a)%nat) as Hcollen.
  { subst col. rewrite (length_concat_uniform (nchan a)).
    - now rewrite length_map, Hlen.
    - apply Forall_map. eapply Forall_impl; [|exact Hrows].
      intros row [Hw Hpx]. rewrite Forall_forall in Hpx. apply Hpx.
      apply nth_In. lia. }
  assert (255 * Z.of_nat (length col) < 2 ^ 64) as Hb by now rewrite Hcollen.
  split.
  - intros H. split; [exact Ej|]. inversion H as [H'].
    apply sum_u64_nonzero in H'; try assumption.
    destruct H' as (v & Hv & Hne). apply in_column in Hv.
    destruct Hv as (i & k & Hv). eauto.
  - intros (_ & i & k & v & Hv & Hne). f_equal.
    apply sum_u64_nonzero; try assumption. exists v. split; [|exact Hne].
    apply in_column. eauto.
Qed.

(** X2. On a well-formed 8-bit canvas whose row and column sums fit in 64
    bits, the extent that [content_extent] returns is the bounding box of
    the nonzero cells: it lies inside the canvas, every nonzero cell lies
    in the rows [y_min..y_max] and the columns [x_min..x_max], and each of
    the four border lines holds a nonzero cell. *)
Theorem content_extent_bounding_box (a : array Z) (y_min y_max x_min x_max : Z) :
  wf_u8 a ->
  255 * Z.of_nat (ncols a * nchan a) < 2 ^ 64 ->
  255 * Z.of_nat (nrows a * nchan a) < 2 ^ 64 ->
  content_extent (U8 a) = Ok (y_min, y_max, x_min, x_max) ->
  (0 <= y_min <= y_max /\ y_max < Z.of_nat (nrows a))
  /\ (0 <= x_min <= x_max /\ x_max < Z.of_nat (ncols a))
  /\ (forall i j k v, aget a i j k = Some v -> v <> 0 ->
        y_min <= Z.of_nat i <= y_max /\ x_min <= Z.of_nat j <= x_max)
  /\ (exists j k v, aget a (Z.to_nat y_min) j k = Some v /\ v <> 0)
  /\ (exists j k v, aget a (Z.to_nat y_max) j k = Some v /\ v <> 0)
  /\ (exists i k v, aget a i (Z.to_nat x_min) k = Some v /\ v <> 0)
  /\ (exists i k v, aget a i (Z.to_nat x_max) k = Some v /\ v <> 0).
Proof.
  intros Hwf Hbw Hbh Hext. unfold content_extent in Hext.
  apply rbind_ok in Hext. destruct Hext as (y0 & Hy0 & Hext).
  apply rbind_ok in Hext. destruct Hext as (y1 & Hy1 & Hext).
  apply rbind_ok in Hext. destruct Hext as (x0 & Hx0 & Hext).
  apply rbind_ok in Hext. destruct Hext as (x1 & Hx1 & Hext).
  inversion Hext; subst y0 y1 x0 x1. clear Hext.
  destruct (np_where_span _ _ _ Hy0 Hy1) as (Hy & Hylen & Fy0 & Fy1 & Hyall).
  destruct (np_where_span _ _ _ Hx0 Hx1) as (Hx & Hxlen & Fx0 & Fx1 & Hxall).
  assert (length (row_sum_ne0 (U8 a)) = nrows a) as Lr.
  { cbn [row_sum_ne0]. unfold row_cells. rewrite !length_map.
    apply Hwf. }
  assert (length (col_sum_ne0 (U8 a)) = ncols a) as Lc.
  { cbn [col_sum_ne0]. unfold col_cells. now rewrite !length_map, length_seq. }
  rewrite Lr in Hylen. rewrite Lc in Hxlen.
  split; [lia|]. split; [lia|]. split.
  - intros i j k v Hv Hne. split.
    + apply Hyall. apply row_flag_iff; eauto.
    + apply Hxall. apply col_flag_iff; try assumption.
      split; [|eauto]. destruct Hwf as [Hwf _].
      now destruct (aget_bounds _ _ _ _ _ Hwf Hv) as (_ & ? & _).
  - split; [apply row_flag_iff; assumption|].
    split; [apply row_flag_iff; assumption|].
    split; [apply col_flag_iff in Fx0; tauto|].
    apply col_flag_iff in Fx1; tauto.
Qed.

End Extent.

(** The bright block of [Sim.dark_block] spans the rows and columns 2..3. *)
Lemma content_extent_bounding_box_witness :
  content_extent (C := Sim.collaborators) (U8 Sim.dark_block) = Ok (2, 3, 2, 3)
  /\ forall i j k v, aget Sim.dark_block i j k = Some v -> v <> 0 ->
       2 <= Z.of_nat i <= 3 /\ 2 <= Z.of_nat j <= 3.
Proof.
  split; [vm_compute; reflexivity|].
  assert (wf_u8 Sim.dark_block) as Hwf.
  { split; [apply sim_build_wf|]. apply in_u8_check. vm_compute. reflexivity. }
  exact (proj1 (proj2 (proj2
           (content_extent_bounding_box (C := Sim.collaborators) Sim.dark_block
              2 3 2 3 Hwf ltac:(vm_compute; reflexivity)
              ltac:(vm_compute; reflexivity) ltac:(vm_compute; reflexivity))))).
Defined.

(** ** Blank canvases *)

Lemma np_where_from_none (flags : list bool) : forall i,
  Forall (eq false) flags -> np_where_from i flags = [].
Proof.
  induction flags as [|f rest IH]; intros i H; [reflexivity|].
  inversion H as [|? ? Hf Hrest]; subst. cbn. now apply IH.
Qed.

Lemma sum_u64_zeros (l : list Z) : Forall (eq 0) l -> sum_u64 l = 0.
Proof.
  intros H. unfold sum_u64.
  assert (forall acc, fold_left Z.add l acc = acc) as E.
  { induction H as [|v l Hv _ IH]; intros acc; cbn; [reflexivity|].
    subst v. now rewrite Z.add_0_r. }
  now rewrite E.
Qed.

Section Blank.
Context {C : Collaborators}.

Lemma content_rows_blank (a : array Z) :
  Forall (eq 0) (elements a) -> content_rows (U8 a) = [].
Proof.
  intros H. unfold content_rows, np_where. apply np_where_from_none.
  cbn [row_sum_ne0]. unfold row_cells. rewrite map_map.
  apply Forall_map, Forall_forall. intros row Hrow.
  rewrite sum_u64_zeros; [reflexivity|].
  unfold elements in H. rewrite Forall_concat in H.
  apply Forall_concat, Forall_forall. intros px Hpx.
  rewrite Forall_forall in H. apply H. apply in_concat. eauto.
Qed.

(** X3. A canvas without content cannot be rescaled: when every cell of an
    8-bit canvas is 0, [random_scale] raises IndexError (at [eqh[-1]]); and
    when the resampled image comes back all 0, it raises IndexError as well
    (at [row_sum[0]]), instead of falling back to the input. *)
Theorem random_scale_blank_raises (img : ndarray) (min_scale max_scale : float)
    (min_pad : Z) (s : rng) :
  (forall a, img = U8 a -> Forall (eq 0) (elements a) ->
     random_scale img min_scale max_scale min_pad s = Raise IndexError)
  /\ (forall img_scale s1,
        scale_and_resample img min_scale max_scale s = Ok (img_scale, s1) ->
        Forall (eq 0) (elements img_scale) ->
        random_scale img min_scale max_scale min_pad s = Raise IndexError).
Proof.
  split.
  - intros a -> H. unfold random_scale, scale_and_resample, bind, lift.
    now rewrite (content_rows_blank a H).
  - intros img_scale s1 Hres H. unfold random_scale, bind. rewrite Hres.
    unfold lift, recrop, content_extent.
    now rewrite (content_rows_blank img_scale H).
Qed.

End Blank.

Lemma all_zero_check (l : list Z) :
  forallb (Z.eqb 0) l = true -> Forall (eq 0) l.
Proof.
  rewrite forallb_forall, Forall_forall. intros H v Hv.
  symmetry. apply Z.eqb_eq. rewrite Z.eqb_sym. now apply H.
Qed.

(** A dark 3 x 3 canvas without any content. *)
Lemma random_scale_blank_raises_witness :
  random_scale (C := Sim.collaborators) (U8 (Sim.block 3 3 0 0 1 1 1 1))
               0.7 1.43 0 [0%nat]
  = Raise IndexError.
Proof.
  apply (proj1 (random_scale_blank_raises (C := Sim.collaborators)
                  (U8 (Sim.block 3 3 0 0 1 1 1 1)) 0.7 1.43 0 [0%nat])
           (Sim.block 3 3 0 0 1 1 1 1) eq_refl).
  apply all_zero_check. vm_compute. reflexivity.
Defined.

Section RescaleInvariants.
Context {C : Collaborators}.

(** ** random_scale returns a well-formed canvas *)

Lemma length_row_sum_ne0 (img : ndarray) :
  wf_ndarray img -> length (row_sum_ne0 img) = height img.
Proof.
  destruct img as [a|a]; cbn [row_sum_ne0 wf_ndarray height]; unfold row_cells;
    rewrite !length_map.
  - intros [[H _] _]. exact H.
  - intros [H _]. exact H.
Qed.

Lemma length_col_sum_ne0 (img : ndarray) :
  length (col_sum_ne0 img) = width img.
Proof.
  destruct img as [a|a]; cbn [col_sum_ne0 width]; unfold col_cells;
    now rewrite !length_map, length_seq.
Qed.

(** A canvas that [scale_and_resample] accepts has a row and a column. *)
Lemma scale_and_resample_size (img : ndarray) (min_scale max_scale : float)
    (s s1 : rng) (img_scale : array Z) :
  wf_ndarray img ->
  scale_and_resample img min_scale max_scale s = Ok (img_scale, s1) ->
  (1 <= height img)%nat /\ (1 <= width img)%nat.
Proof.
  intros Hwf H. unfold scale_and_resample in H.
  apply bind_ok in H. destruct H as (r1 & t1 & Hr1 & H). run_inv Hr1.
  apply bind_ok in H. destruct H as (r0 & t2 & _ & H).
  apply bind_ok in H. destruct H as (c1 & t3 & Hc1 & _). run_inv Hc1.
  apply last_item_np_where in Hr1, Hc1.
  rewrite length_row_sum_ne0 in Hr1 by assumption.
  rewrite length_col_sum_ne0 in Hc1. lia.
Qed.

(** X4. [random_scale] returns whenever the resampling succeeded, the
    resampled image has content and [min_pad] is not negative: on a
    well-formed canvas the crop is always smaller than the canvas, so the
    pad widths are never negative. *)
Theorem random_scale_returns_on_content (img : ndarray)
    (min_scale max_scale : float) (min_pad : Z) (s s1 : rng)
    (img_scale : array Z) (e : Z * Z * Z * Z) :
  wf_ndarray img ->
  scale_and_resample img min_scale max_scale s = Ok (img_scale, s1) ->
  content_extent (U8 img_scale) = Ok e ->
  0 <= min_pad ->
  exists out,
    random_scale img min_scale max_scale min_pad s = Ok (out, s1)
    /\ height out = height img /\ width out = width img.
Proof.
  intros Hwf Hres Hext Hpad.
  destruct (scale_and_resample_size _ _ _ _ _ _ Hwf Hres) as [Hh Hw].
  destruct (recrop_returns img img_scale min_pad e Hext Hpad Hh Hw)
    as [out Hout].
  exists out. split.
  - unfold random_scale, bind. rewrite Hres. unfold lift. now rewrite Hout.
  - eapply recrop_shape. exact Hout.
Qed.

Lemma elements_crop {A} (P : A -> Prop) (a : array A) (y0 y1 x0 x1 : Z) :
  Forall P (elements a) -> Forall P (elements (crop a y0 y1 x0 x1)).
Proof.
  intros H. apply Forall_forall. intros v Hv.
  apply in_elements in Hv. destruct Hv as (row & px & Hrow & Hpx & Hv).
  unfold crop in Hrow. cbn [cells] in Hrow.
  apply in_map_iff in Hrow. destruct Hrow as (row0 & <- & Hrow0).
  apply in_py_slice in Hrow0, Hpx.
  rewrite Forall_forall in H. apply H. apply in_elements. eauto.
Qed.

Lemma elements_pad_cells {A} (P : A -> Prop) (zero : A) (a : array A)
    (up down left right : nat) :
  P zero -> Forall P (elements a) ->
  Forall P (elements (pad_cells zero a up down left right)).
Proof.
  intros Hz H. apply Forall_forall. intros v Hv.
  apply in_elements in Hv. destruct Hv as (row & px & Hrow & Hpx & Hv).
  assert (forall n, In px (repeat (repeat zero (nchan a)) n) -> P v) as Hblank.
  { intros n Hin. apply repeat_spec in Hin. subst px.
    apply repeat_spec in Hv. now subst v. }
  unfold pad_cells in Hrow. cbn [cells] in Hrow.
  apply in_app_or in Hrow. destruct Hrow as [Hrow|Hrow].
  { apply repeat_spec in Hrow. subst row. eauto. }
  apply in_app_or in Hrow. destruct Hrow as [Hrow|Hrow].
  2:{ apply repeat_spec in Hrow. subst row. eauto. }
  apply in_map_iff in Hrow. destruct Hrow as (row0 & <- & Hrow0).
  unfold pad_row in Hpx.
  apply in_app_or in Hpx. destruct Hpx as [Hpx|Hpx]; [eauto|].
  apply in_app_or in Hpx. destruct Hpx as [Hpx|Hpx]; [|eauto].
  rewrite Forall_forall in H. apply H. apply in_elements. eauto.
Qed.

Lemma wf_u8_pad_crop (a : array Z) (y0 y1 x0 x1 : Z)
    (up down left right : nat) :
  wf_u8 a -> wf_u8 (pad_cells 0 (crop a y0 y1 x0 x1) up down left right).
Proof.
  intros [Hwf Hu8]. split.
  - apply wf_pad_cells, wf_crop, Hwf.
  - apply elements_pad_cells; [unfold in_u8; lia|].
    apply elements_crop, Hu8.
Qed.

(** X5. [random_scale] keeps canvases well-formed: on a well-formed input
    every canvas it returns is well-formed too (its cells agree with its
    shape, and 8-bit cells stay in 0..255), on the fallback path and on
    the padding path. *)
Theorem random_scale_keeps_well_formed {COk : CollaboratorsOk C}
    (img : ndarray) (min_scale max_scale : float) (min_pad : Z) (s s' : rng)
    (out : ndarray) :
  wf_ndarray img ->
  random_scale img min_scale max_scale min_pad s = Ok (out, s') ->
  wf_ndarray out
  /\ (out = img \/ exists o, out = U8 o /\ wf_u8 o).
Proof.
  intros Hwf Hrun.
  apply random_scale_inv in Hrun. destruct Hrun as (img_scale & Hres & Hrun).
  apply scale_and_resample_wf in Hres. destruct Hres as [Hwfs Hu8].
  unfold recrop in Hrun.
  apply rbind_ok in Hrun.
  destruct Hrun as ([[[y_min y_max] x_min] x_max] & _ & Hrun).
  destruct (too_large _ _ _ _ _ _ _).
  { inversion Hrun; subst out. auto. }
  apply rbind_ok in Hrun. destruct Hrun as (padded & Hpad & Hrun).
  inversion Hrun; subst out. clear Hrun.
  unfold repad in Hpad. apply np_pad_ok in Hpad.
  destruct Hpad as (_ & _ & _ & _ & ->).
  unfold crop_extent, clip_extent.
  split; [|right; eexists; split; [reflexivity|]];
    apply wf_u8_pad_crop; split; assumption.
Qed.

End RescaleInvariants.

Lemma sim_dark_block_wf : wf_u8 Sim.dark_block.
Proof.
  split; [apply sim_build_wf|]. apply in_u8_check. vm_compute. reflexivity.
Qed.

Lemma random_scale_returns_on_content_witness :
  exists out,
    random_scale (C := Sim.collaborators) (U8 Sim.dark_block) 1 1 0 [0%nat]
    = Ok (out, [])
    /\ height out = 6%nat /\ width out = 6%nat.
Proof.
  apply (random_scale_returns_on_content (C := Sim.collaborators)
           (U8 Sim.dark_block) 1 1 0 [0%nat] []
           (Sim.nearest (Sim.as_u8 (U8 Sim.dark_block)) 6 6) (2, 3, 2, 3)).
  - exact sim_dark_block_wf.
  - vm_compute. reflexivity.
  - vm_compute. reflexivity.
  - lia.
Defined.

Lemma random_scale_keeps_well_formed_witness :
  exists out,
    random_scale (C := Sim.collaborators) (U8 Sim.dark_block) 1 1 0 [0%nat]
    = Ok (out, [])
    /\ wf_ndarray out.
Proof.
  destruct (random_scale (C := Sim.collaborators) (U8 Sim.dark_block) 1 1 0
              [0%nat]) as [[out s']|e] eqn:Hrun;
    [|vm_compute in Hrun; discriminate].
  assert (s' = []) as -> by (vm_compute in Hrun; now inversion Hrun).
  exists out. split; [reflexivity|].
  exact (proj1 (random_scale_keeps_well_formed (C := Sim.collaborators)
                  (COk := sim_contract) (U8 Sim.dark_block) 1%float 1%float 0
                  [0%nat] [] out sim_dark_block_wf Hrun)).
Defined.

Section BlankBorder.
Context {C : Collaborators}.

(** X6. After a rescale that crops and pads (with [min_pad >= 0]) the last
    row and the last column of the output are blank: the crop stops before
    row H-1 and column W-1, so each deficit is at least 1 and at least one
    line of zeros is padded after the content on each axis. *)
Theorem random_scale_blank_last_lines {COk : CollaboratorsOk C}
    (img : ndarray) (min_scale max_scale : float) (min_pad : Z) (s s' : rng)
    (img_scale : array Z) (y_min y_max x_min x_max : Z) :
  wf_ndarray img ->
  scale_and_resample img min_scale max_scale s = Ok (img_scale, s') ->
  content_extent (U8 img_scale) = Ok (y_min, y_max, x_min, x_max) ->
  too_large (Z.of_nat (height img)) (Z.of_nat (width img)) min_pad
            y_min y_max x_min x_max = false ->
  0 <= min_pad ->
  exists o,
    random_scale img min_scale max_scale min_pad s = Ok (U8 o, s')
    /\ (forall j k v, aget o (height img - 1) j k = Some v -> v = 0)
    /\ (forall i k v, aget o i (width img - 1) k = Some v -> v = 0).
Proof.
  intros Hwf Hres Hext Hfit Hpad.
  destruct (scale_and_resample_size _ _ _ _ _ _ Hwf Hres) as [Hh Hw].
  destruct (recrop_returns img img_scale min_pad _ Hext Hpad Hh Hw)
    as [out Hout].
  destruct (recrop_pads _ _ _ _ _ _ _ _ Hext Hfit Hout)
    as (Hu & Hd & Hl & Hr & ->).
  eexists. split.
  { unfold random_scale, bind. rewrite Hres. unfold lift. now rewrite Hout. }
  assert (wf (crop_extent img_scale
                (clip_extent (Z.of_nat (height img)) (Z.of_nat (width img))
                   min_pad (y_min, y_max, x_min, x_max)))) as Hwfc.
  { apply scale_and_resample_wf in Hres. destruct Hres as [Hwfs _].
    unfold crop_extent, clip_extent. now apply wf_crop. }
  unfold content_extent in Hext.
  apply rbind_ok in Hext. destruct Hext as (y0 & _ & Hext).
  apply rbind_ok in Hext. destruct Hext as (y1 & Hy1 & Hext).
  apply rbind_ok in Hext. destruct Hext as (x0 & _ & Hext).
  apply rbind_ok in Hext. destruct Hext as (x1 & Hx1 & Hext).
  inversion Hext; subst y0 y1 x0 x1. clear Hext.
  apply last_item_np_where in Hy1, Hx1.
  set (c := crop_extent _ _) in *.
  assert (Z.of_nat (nrows c) <= Z.of_nat (height img) - 1) as Hrows.
  { subst c. unfold crop_extent, clip_extent. cbn [crop nrows].
    pose proof (slice_len_le (nrows img_scale) (Z.max (y_min - min_pad) 0)
                  (Z.min (y_max + min_pad) (Z.of_nat (height img) - 1))
                  ltac:(lia)).
    lia. }
  assert (Z.of_nat (ncols c) <= Z.of_nat (width img) - 1) as Hcols.
  { subst c. unfold crop_extent, clip_extent. cbn [crop ncols].
    pose proof (slice_len_le (ncols img_scale) (Z.max (x_min - min_pad) 0)
                  (Z.min (x_max + min_pad) (Z.of_nat (width img) - 1))
                  ltac:(lia)).
    lia. }
  set (dh := Z.of_nat (height img) - Z.of_nat (nrows c)) in *.
  set (dw := Z.of_nat (width img) - Z.of_nat (ncols c)) in *.
  destruct (pad_split dh Hu Hd) as (_ & Eu & _).
  destruct (pad_split dw Hl Hr) as (_ & El & _).
  pose proof (Z.div_mod dh 2 ltac:(lia)).
  pose proof (Z.mod_pos_bound dh 2 ltac:(lia)).
  pose proof (Z.div_mod dw 2 ltac:(lia)).
  pose proof (Z.mod_pos_bound dw 2 ltac:(lia)).
  split.
  - intros j k v Hget. eapply aget_pad_outside; [exact Hwfc|exact Hget|].
    right. left. lia.
  - intros i k v Hget. eapply aget_pad_outside; [exact Hwfc|exact Hget|].
    right. right. right. lia.
Qed.

End BlankBorder.

Lemma random_scale_blank_last_lines_witness :
  exists o,
    random_scale (C := Sim.collaborators) (U8 Sim.dark_block) 1 1 0 [0%nat]
    = Ok (U8 o, [])
    /\ (forall j k v, aget o 5 j k = Some v -> v = 0)
    /\ (forall i k v, aget o i 5 k = Some v -> v = 0).
Proof.
  apply (random_scale_blank_last_lines (C := Sim.collaborators)
           (COk := sim_contract) (U8 Sim.dark_block) 1 1 0 [0%nat] []
           (Sim.nearest (Sim.as_u8 (U8 Sim.dark_block)) 6 6) 2 3 2 3).
  - exact sim_dark_block_wf.
  - vm_compute. reflexivity.
  - vm_compute. reflexivity.
  - vm_compute. reflexivity.
  - lia.
Defined.

(** ** The two cleanups *)

(** X7. Each cleanup is idempotent, on 8-bit and on float64 canvases:
    snapping a snapped canvas changes nothing. *)
Theorem cleanup_idempotent (img : ndarray) :
  snap_below_55 (snap_below_55 img) = snap_below_55 img
  /\ snap_above_200 (snap_above_200 img) = snap_above_200 img.
Proof.
  split; destruct img as [a|a]; cbn [snap_below_55 snap_above_200]; f_equal;
    rewrite amap_amap; apply amap_ext_in; intros v _; cbv beta.
  - destruct (v <? 55) eqn:E; [reflexivity|now rewrite E].
  - destruct (PrimFloat.ltb v 55) eqn:E; [reflexivity|now rewrite E].
  - destruct (200 <? v) eqn:E; [reflexivity|now rewrite E].
  - destruct (PrimFloat.ltb 200 v) eqn:E; [reflexivity|now rewrite E].
Qed.

Lemma wf_u8_amap (f : Z -> Z) (a : array Z) :
  (forall v, in_u8 v -> in_u8 (f v)) -> wf_u8 a -> wf_u8 (amap f a).
Proof.
  intros Hf [Hwf Hu8]. split; [now apply wf_amap|].
  rewrite elements_amap. apply Forall_map.
  eapply Forall_impl; [|exact Hu8]. exact Hf.
Qed.

(** X8. On an 8-bit canvas the two branches of the last gate give inverse
    images: inverting and snapping the cells above 200 to 255 is the same
    as snapping the cells below 55 to 0 and then inverting.  Both results
    are again 8-bit. *)
Theorem invert_branch_inverts_clean_branch (a : array Z) :
  Forall in_u8 (elements a) ->
  snap_above_200 (invert_img (U8 a)) = invert_img (snap_below_55 (U8 a))
  /\ all_cells in_u8 (fun _ => False) (snap_above_200 (invert_img (U8 a)))
  /\ all_cells in_u8 (fun _ => False) (snap_below_55 (U8 a)).
Proof.
  intros Hu8. cbn [snap_above_200 invert_img snap_below_55 all_cells].
  rewrite Forall_forall in Hu8. split; [|split].
  - f_equal. rewrite !amap_amap. apply amap_ext_in. intros v Hv.
    specialize (Hu8 v Hv). unfold in_u8 in Hu8. cbv beta.
    rewrite (Z.mod_small (255 - v) 256) by lia.
    destruct (v <? 55) eqn:E1; destruct (200 <? 255 - v) eqn:E2;
      try lia; try reflexivity.
    rewrite Z.mod_small; lia.
  - rewrite amap_amap, elements_amap. apply Forall_map, Forall_forall.
    intros v Hv. specialize (Hu8 v Hv). unfold in_u8 in *.
    rewrite (Z.mod_small (255 - v) 256) by lia.
    destruct (200 <? 255 - v); lia.
  - rewrite elements_amap. apply Forall_map, Forall_forall.
    intros v Hv. specialize (Hu8 v Hv). unfold in_u8 in *.
    destruct (v <? 55); lia.
Qed.

Lemma invert_branch_inverts_clean_branch_witness :
  snap_above_200 (invert_img (U8 Sim.dark_block))
  = invert_img (snap_below_55 (U8 Sim.dark_block)).
Proof.
  apply (invert_branch_inverts_clean_branch Sim.dark_block).
  exact (proj2 sim_dark_block_wf).
Defined.

(** ** What random_hue draws and what it paints *)

Lemma set_channel_cells {A} (k : nat) (v : A) (a out : array A) :
  set_channel k v a = Ok out ->
  (k < nchan a)%nat
  /\ out = mkArray (nrows a) (ncols a) (nchan a)
                   (map (map (set_nth k v)) (cells a)).
Proof.
  unfold set_channel. destruct (k <? nchan a)%nat eqn:E; [|discriminate].
  apply Nat.ltb_lt in E. intros H. inversion H. auto.
Qed.

Lemma set_three_channels {A} (h s v : A) (px : list A) :
  length px = 3%nat ->
  set_nth 2 v (set_nth 1 s (set_nth 0 h px)) = [h; s; v].
Proof.
  destruct px as [|x0 [|x1 [|x2 [|x3 px]]]]; cbn; intros H;
    try discriminate; reflexivity.
Qed.

Section Recolor2.
Context {C : Collaborators}.

(** X9. [random_hue] reads the random source three times on a light
    background (hue, saturation, and the value from [0, 0.7)) and four
    times on a dark one: the value from [0, 0.7) is drawn and discarded,
    and the value from [0.3, 1) is drawn after it. *)
Theorem random_hue_reads_source (img : ndarray) (s s' : rng) (out : ndarray) :
  random_hue img s = Ok (out, s') ->
  let s1 := snd (uniform 0 1 s) in
  let s2 := snd (uniform 0 1 s1) in
  let s3 := snd (uniform 0 0.7 s2) in
  s' = if bg_value_of img =? 0 then snd (uniform 0.3 1 s3) else s3.
Proof.
  intros H. unfold random_hue in H.
  apply bind_ok in H. destruct H as (hsv0 & t0 & H0 & H). run_inv H0.
  apply bind_ok in H. destruct H as (hue & t1 & Hd1 & H). apply draw_ok in Hd1.
  apply bind_ok in H. destruct H as (sat & t2 & Hd2 & H). apply draw_ok in Hd2.
  apply bind_ok in H. destruct H as (val0 & t3 & Hd3 & H). apply draw_ok in Hd3.
  apply bind_ok in H. destruct H as (val & t4 & Hd4 & H).
  apply bind_ok in H. destruct H as (hsv1 & t5 & H1 & H). run_inv H1.
  apply bind_ok in H. destruct H as (hsv2 & t6 & H2 & H). run_inv H2.
  apply bind_ok in H. destruct H as (hsv3 & t7 & H3 & H). run_inv H3.
  apply bind_ok in H. destruct H as (img_rgb & t8 & H4 & H). run_inv H4.
  apply bind_ok in H. destruct H as (masked & t9 & H5 & H). run_inv H5.
  apply ret_ok in H. destruct H as [_ ->].
  cbv zeta. rewrite Hd1. cbn [snd]. rewrite Hd2. cbn [snd].
  rewrite Hd3. cbn [snd].
  destruct (bg_value_of img =? 0).
  - apply draw_ok in Hd4. now rewrite Hd4.
  - apply ret_ok in Hd4. now destruct Hd4.
Qed.

(** X10. [random_hue] paints one flat colour: on a well-formed 8-bit
    canvas of three channels, whatever its colours, the image handed to
    [hsv2rgb] holds the same triple (hue, saturation, value, each clamped
    to [0, 1]) at every pixel, and every cell of the output that is not a
    background cell is 255 times the cell of the converted flat image. *)
Theorem random_hue_paints_flat_colour {COk : CollaboratorsOk C}
    (a : array Z) (s s' : rng) (out : ndarray) :
  wf a -> nchan a = 3%nat ->
  (forall x y, rgb2hsv x = Ok y -> wf y) ->
  random_hue (U8 a) s = Ok (out, s') ->
  let bg := bg_value_of (U8 a) in
  let s1 := snd (uniform 0 1 s) in
  let s2 := snd (uniform 0 1 s1) in
  let s3 := snd (uniform 0 0.7 s2) in
  let clamp := fun v : float =>
    let v := if PrimFloat.ltb 1 v then 1%float else v in
    if PrimFloat.ltb v 0 then 0%float else v in
  let hue := clamp (fst (uniform 0 1 s)) in
  let sat := clamp (fst (uniform 0 1 s1)) in
  let val := clamp (if bg =? 0 then fst (uniform 0.3 1 s3)
                    else fst (uniform 0 0.7 s2)) in
  exists flat rgb o,
    hsv2rgb flat = Ok rgb
    /\ out = F64 o
    /\ same_shape a flat
    /\ (forall i j k, (i < nrows a)%nat -> (j < ncols a)%nat ->
          aget flat i j k = nth_error [hue; sat; val] k)
    /\ (forall i j k v, aget a i j k = Some v -> v <> bg ->
          aget o i j k
          = option_map (fun x => PrimFloat.mul x 255) (aget rgb i j k)).
Proof.
  intros Hwf Hc Hhsvwf H bg s1 s2 s3 clamp hue sat val.
  unfold random_hue in H. fold bg in H.
  apply bind_ok in H. destruct H as (hsv0 & t0 & H0 & H). run_inv H0.
  apply bind_ok in H. destruct H as (dh & t1 & Hd1 & H). apply draw_ok in Hd1.
  apply bind_ok in H. destruct H as (ds & t2 & Hd2 & H). apply draw_ok in Hd2.
  apply bind_ok in H. destruct H as (dv0 & t3 & Hd3 & H). apply draw_ok in Hd3.
  apply bind_ok in H. destruct H as (dv & t4 & Hd4 & H).
  apply bind_ok in H. destruct H as (hsv1 & t5 & H1 & H). run_inv H1.
  apply bind_ok in H. destruct H as (hsv2 & t6 & H2 & H). run_inv H2.
  apply bind_ok in H. destruct H as (hsv3 & t7 & H3 & H). run_inv H3.
  apply bind_ok in H. destruct H as (img_rgb & t8 & H4 & H). run_inv H4.
  apply bind_ok in H. destruct H as (masked & t9 & H5 & H). run_inv H5.
  apply ret_ok in H. destruct H as [-> _].
  (* the draws *)
  assert (dh = fst (uniform 0 1 s)) as -> by now rewrite Hd1.
  assert (t1 = s1) as -> by (subst s1; now rewrite Hd1).
  assert (ds = fst (uniform 0 1 s1)) as -> by now rewrite Hd2.
  assert (t2 = s2) as -> by (subst s2; now rewrite Hd2).
  assert (t3 = s3) as -> by (subst s3; now rewrite Hd3).
  assert (dv = if bg =? 0 then fst (uniform 0.3 1 s3)
               else fst (uniform 0 0.7 s2)) as ->.
  { destruct (bg =? 0).
    - apply draw_ok in Hd4. now rewrite Hd4.
    - apply ret_ok in Hd4. destruct Hd4 as [-> _]. now rewrite Hd3. }
  (* the image handed to hsv2rgb *)
  pose proof (Hhsvwf _ _ H0) as Hwf0.
  pose proof (rgb2hsv_shape _ _ H0) as (Eh & Ew & Ec). cbn [astype_u8] in Eh, Ew, Ec.
  apply set_channel_cells in H1, H2, H3.
  destruct H1 as [_ ->]. destruct H2 as [_ ->]. destruct H3 as [_ ->].
  cbn [nrows ncols nchan cells] in *.
  match type of H4 with hsv2rgb ?f = _ => set (flat := f) in * end.
  exists flat, img_rgb. eexists. split; [exact H4|]. split; [reflexivity|].
  split; [subst flat; unfold same_shape; cbn; auto|]. split.
  - intros i j k Hi Hj.
    destruct Hwf0 as [Hlen0 Hrows0].
    subst flat. unfold aget, amap. cbn [cells].
    rewrite !map_map, nth_error_map.
    destruct (nth_error (cells hsv0) i) as [row|] eqn:Ei.
    2:{ apply nth_error_None in Ei. lia. }
    cbn [option_map]. rewrite !map_map, nth_error_map.
    rewrite Forall_forall in Hrows0.
    destruct (Hrows0 row (nth_error_In _ _ Ei)) as [Hw0 Hpx0].
    destruct (nth_error row j) as [px|] eqn:Ej.
    2:{ apply nth_error_None in Ej. lia. }
    cbn [option_map].
    rewrite Forall_forall in Hpx0.
    rewrite set_three_channels
      by (rewrite (Hpx0 px (nth_error_In _ _ Ej)); congruence).
    reflexivity.
  - intros i j k v Hv Hne.
    apply mask_assign_ok in H5. destruct H5 as (_ & _ & Hget).
    rewrite aget_amap, Hget. cbn [cell_is]. rewrite aget_amap, Hv.
    cbn [option_map].
    replace (v =? bg) with false by (symmetry; apply Z.eqb_neq; exact Hne).
    now destruct (aget img_rgb i j k).
Qed.

End Recolor2.

Lemma sim_rgb2hsv_wf (x : array Z) (y : array float) :
  Sim.rgb2hsv x = Ok y -> wf y.
Proof.
  unfold Sim.rgb2hsv. destruct (Nat.eqb (nchan x) 3); [|discriminate].
  intros H. apply ok_inj in H. rewrite <- H. apply sim_build_wf.
Qed.

Lemma sim_light_pair_wf : wf_u8 Sim.light_pair.
Proof.
  split; [apply sim_build_wf|]. apply in_u8_check. vm_compute. reflexivity.
Qed.

(** Three draws on the light canvas: the fourth number stays on the tape. *)
Lemma random_hue_reads_source_witness :
  exists out,
    random_hue (C := Sim.collaborators) (U8 Sim.light_pair)
               [0; 0; 128; 77]%nat = Ok (out, [77%nat]).
Proof.
  destruct (random_hue (C := Sim.collaborators) (U8 Sim.light_pair)
              [0; 0; 128; 77]%nat) as [[out s']|e] eqn:Hrun;
    [|vm_compute in Hrun; discriminate].
  exists out.
  rewrite (random_hue_reads_source (C := Sim.collaborators) (U8 Sim.light_pair)
             [0; 0; 128; 77]%nat s' out Hrun).
  vm_compute. reflexivity.
Defined.

(** The black pixel and the white pixel get the same colour triple. *)
Lemma random_hue_paints_flat_colour_witness :
  exists flat rgb o,
    hsv2rgb (Collaborators := Sim.collaborators) flat = Ok rgb
    /\ random_hue (C := Sim.collaborators) (U8 Sim.light_pair)
                  [0; 0; 128]%nat = Ok (F64 o, [])
    /\ aget flat 0 0 2 = Some 0.35%float
    /\ aget flat 0 1 2 = Some 0.35%float.
Proof.
  destruct (random_hue (C := Sim.collaborators) (U8 Sim.light_pair)
              [0; 0; 128]%nat) as [[out s']|e] eqn:Hrun;
    [|vm_compute in Hrun; discriminate].
  assert (s' = []) as -> by (vm_compute in Hrun; now inversion Hrun).
  destruct (random_hue_paints_flat_colour (C := Sim.collaborators)
              (COk := sim_contract) Sim.light_pair [0; 0; 128]%nat [] out
              (proj1 sim_light_pair_wf) eq_refl sim_rgb2hsv_wf Hrun)
    as (flat & rgb & o & Hrgb & -> & _ & Hflat & _).
  exists flat, rgb, o. split; [exact Hrgb|]. split; [reflexivity|]. split.
  - rewrite (Hflat 0%nat 0%nat 2%nat) by (vm_compute; lia).
    vm_compute. reflexivity.
  - rewrite (Hflat 0%nat 1%nat 2%nat) by (vm_compute; lia).
    vm_compute. reflexivity.
Defined.

Section Pipeline2.
Context {C : Collaborators}.

(** ** The pipeline *)

Lemma random_rotate_wf {COk : CollaboratorsOk C} (img : ndarray)
    (angle_std : float) (s s' : rng) (out : ndarray) :
  random_rotate img angle_std s = Ok (out, s') ->
  exists r, out = U8 r /\ wf_u8 r
            /\ nrows r = height img /\ ncols r = width img.
Proof.
  intros H. unfold random_rotate in H.
  apply bind_ok in H. destruct H as (z & s1 & _ & H).
  apply bind_ok in H. destruct H as (rotated & s2 & _ & H).
  apply bind_ok in H. destruct H as (resized & s3 & Hres & H). run_inv Hres.
  apply ret_ok in H. destruct H as [-> _].
  exists resized. split; [reflexivity|].
  split; [eapply imresize_wf; eassumption|].
  eapply imresize_to_shape. eassumption.
Qed.

Lemma cleanup_keeps_u8 (a : array Z) :
  wf_u8 a ->
  (exists o, snap_above_200 (invert_img (U8 a)) = U8 o /\ wf_u8 o
             /\ nrows o = nrows a /\ ncols o = ncols a)
  /\ (exists o, snap_below_55 (U8 a) = U8 o /\ wf_u8 o
                /\ nrows o = nrows a /\ ncols o = ncols a).
Proof.
  intros Hwf. split; eexists; (split; [reflexivity|]);
    (split; [|split; reflexivity]).
  - apply wf_u8_amap.
    + intros v Hv. unfold in_u8 in *. destruct (200 <? v); lia.
    + apply wf_u8_amap; [|exact Hwf].
      intros v Hv. unfold in_u8 in *. apply Z.mod_pos_bound. lia.
  - apply wf_u8_amap; [|exact Hwf].
    intros v Hv. unfold in_u8 in *. destruct (v <? 55); lia.
Qed.

(** X11. With the rotate gate open ([rotate = 1.0], the default), whatever
    [random_transform] returns on a well-formed 8-bit canvas is a
    well-formed 8-bit canvas of the same height and width: all cells are
    in 0..255, through the identity gate and through the stages.  It
    returns on the identity path, and whenever its gated stages return; a
    run in which a stage raises returns nothing. *)
Theorem transform_rotating_returns_canvas {COk : CollaboratorsOk C}
    (a : array Z)
    (original invert scale min_scale max_scale hue angle_std : float)
    (s : rng) :
  wf_u8 a ->
  (forall out s',
     random_transform (U8 a) original invert scale min_scale max_scale hue 1
                      angle_std s = Ok (out, s') ->
     exists o, out = U8 o /\ wf_u8 o /\ nrows o = nrows a /\ ncols o = ncols a)
  /\ (PrimFloat.ltb (fst (uniform 0 1 s)) original = true ->
      random_transform (U8 a) original invert scale min_scale max_scale hue 1
                       angle_std s = Ok (U8 a, snd (uniform 0 1 s)))
  /\ (forall img_trf s4,
        PrimFloat.ltb (fst (uniform 0 1 s)) original = false ->
        gated_stages (U8 a) scale min_scale max_scale hue 1 angle_std
                     (snd (uniform 0 1 s)) = Ok (img_trf, s4) ->
        exists o,
          random_transform (U8 a) original invert scale min_scale max_scale
                           hue 1 angle_std s = Ok (U8 o, snd (uniform 0 1 s4))
          /\ wf_u8 o /\ nrows o = nrows a /\ ncols o = ncols a).
Proof.
  intros Hwf.
  assert (forall out s',
     random_transform (U8 a) original invert scale min_scale max_scale hue 1
                      angle_std s = Ok (out, s') ->
     exists o, out = U8 o /\ wf_u8 o /\ nrows o = nrows a /\ ncols o = ncols a)
    as Hcanvas.
  { intros out s' H. unfold random_transform in H.
    apply bind_ok in H. destruct H as (d & s1 & _ & H).
    destruct (PrimFloat.ltb d original).
    { apply ret_ok in H. destruct H as [-> _]. exists a. auto. }
    apply bind_ok in H. destruct H as (img_trf & s4 & Hstages & H).
    pose proof (gated_stages_shape _ _ _ _ _ _ _ _ _ _ Hstages) as [Eh Ew].
    apply gated_stages_inv in Hstages.
    destruct Hstages as (scaled & t1 & recolored & t2 & _ & _ & H3).
    rewrite (proj2 (uniform01_range t2)) in H3.
    apply random_rotate_wf in H3. destruct H3 as (r & -> & Hr & _ & _).
    cbn [height width] in Eh, Ew.
    destruct (cleanup_keeps_u8 r Hr)
      as [(o1 & E1 & Hw1 & Eh1 & Ew1) (o2 & E2 & Hw2 & Eh2 & Ew2)].
    unfold invert_or_clean in H.
    apply bind_ok in H. destruct H as (d4 & s5 & _ & H).
    destruct (PrimFloat.ltb d4 invert);
      apply ret_ok in H; destruct H as [-> _].
    - exists o1. rewrite E1. repeat split; try apply Hw1; congruence.
    - exists o2. rewrite E2. repeat split; try apply Hw2; congruence. }
  split; [exact Hcanvas|]. split.
  - intros Hd. unfold random_transform, bind, draw, ret.
    destruct (uniform 0 1 s) as [d s1]. cbn [fst snd] in *.
    now rewrite Hd.
  - intros img_trf s4 Hd Hstages.
    assert (exists out,
              random_transform (U8 a) original invert scale min_scale
                max_scale hue 1 angle_std s = Ok (out, snd (uniform 0 1 s4)))
      as [out Hrun].
    { unfold random_transform, bind, draw.
      destruct (uniform 0 1 s) as [d s1]. cbn [fst snd] in *.
      rewrite Hd, Hstages. unfold invert_or_clean, bind, draw, ret.
      destruct (uniform 0 1 s4) as [d4 s5]. cbn [fst snd].
      destruct (PrimFloat.ltb d4 invert); eauto. }
    destruct (Hcanvas _ _ Hrun) as (o & -> & Ho).
    exists o. split; [exact Hrun|exact Ho].
Qed.

(** X12. With the scale, hue and rotate gates closed (thresholds 0) and
    the identity gate closed, [random_transform] never raises, whatever
    the canvas: it reads the source five times and returns the input with
    one of the two cleanups applied. *)
Theorem transform_with_closed_gates {COk : CollaboratorsOk C} (img : ndarray)
    (invert min_scale max_scale angle_std : float) (s : rng) :
  let s1 := snd (uniform 0 1 s) in
  let s2 := snd (uniform 0 1 s1) in
  let s3 := snd (uniform 0 1 s2) in
  let s4 := snd (uniform 0 1 s3) in
  random_transform img 0 invert 0 min_scale max_scale 0 0 angle_std s
  = Ok (if PrimFloat.ltb (fst (uniform 0 1 s4)) invert
        then snap_above_200 (invert_img img)
        else snap_below_55 img,
        snd (uniform 0 1 s4)).
Proof.
  intros s1 s2 s3 s4.
  unfold random_transform, gated_stages, invert_or_clean, bind, draw, ret.
  pose proof (proj1 (uniform01_range s)) as E0.
  pose proof (proj1 (uniform01_range s1)) as E1.
  pose proof (proj1 (uniform01_range s2)) as E2.
  pose proof (proj1 (uniform01_range s3)) as E3.
  subst s1 s2 s3 s4.
  destruct (uniform 0 1 s) as [d0 s1]. cbn [fst snd] in *. rewrite E0.
  destruct (uniform 0 1 s1) as [d1 s2]. cbn [fst snd] in *. rewrite E1.
  destruct (uniform 0 1 s2) as [d2 s3]. cbn [fst snd] in *. rewrite E2.
  destruct (uniform 0 1 s3) as [d3 s4]. cbn [fst snd] in *. rewrite E3.
  destruct (uniform 0 1 s4) as [d4 s5]. cbn [fst snd].
  now destruct (PrimFloat.ltb d4 invert).
Qed.

(** X13. With the scale gate open ([scale = 1.0], the default) and the
    identity gate closed, a canvas whose content lies in one row or in one
    column makes the whole pipeline fail: [random_transform] raises the
    ZeroDivisionError of [random_scale]. *)
Theorem transform_divides_by_zero {COk : CollaboratorsOk C} (img : ndarray)
    (invert min_scale max_scale hue rotate angle_std : float) (s : rng)
    (row_min row_max col_min col_max : Z) :
  first_item (content_rows img) = Ok row_min ->
  last_item (content_rows img) = Ok row_max ->
  first_item (content_cols img) = Ok col_min ->
  last_item (content_cols img) = Ok col_max ->
  row_max = row_min \/ col_max = col_min ->
  random_transform img 0 invert 1 min_scale max_scale hue rotate angle_std s
  = Raise ZeroDivisionError.
Proof.
  intros Hr0 Hr1 Hc0 Hc1 Hone.
  assert (forall t, random_scale img min_scale max_scale 0 t
                    = Raise ZeroDivisionError) as Hscale.
  { intros t. unfold random_scale, scale_and_resample, bind, lift.
    rewrite Hr1, Hr0, Hc1, Hc0.
    destruct (py_float_div (py_float (Z.of_nat (height img)))
                (py_float (row_max - row_min))) as [by_h|e] eqn:Eh.
    2:{ now rewrite (py_float_div_raises _ _ _ Eh). }
    destruct Hone as [-> | ->].
    - rewrite Z.sub_diag, py_float_div_by_zero in Eh. discriminate.
    - now rewrite Z.sub_diag, py_float_div_by_zero. }
  unfold random_transform, gated_stages, bind, draw.
  pose proof (uniform01_range s) as [E0 _].
  pose proof (uniform01_range (snd (uniform 0 1 s))) as [_ E1].
  destruct (uniform 0 1 s) as [d0 s1]. cbn [fst snd] in *. rewrite E0.
  destruct (uniform 0 1 s1) as [d1 s2]. cbn [fst snd] in *. rewrite E1.
  now rewrite Hscale.
Qed.

End Pipeline2.

(** ** invert_img on float64 cells *)

(** X14. On float64 arrays, such as [random_hue] returns, inverting twice
    need not give the image back: [255 - (255 - 0.1)] is not [0.1]. *)
Theorem invert_img_float64_rounds :
  exists a : array float,
    wf a /\ invert_img (invert_img (F64 a)) <> F64 a.
Proof.
  exists (mkArray 1 1 3 [[[0.1%float; 0.1%float; 0.1%float]]]).
  split.
  - split; [reflexivity|]. repeat constructor.
  - intros H.
    apply (f_equal (fun img => match img with
                              | F64 a => match aget a 0 0 0 with
                                         | Some x => x
                                         | None => 0%float
                                         end
                              | U8 _ => 0%float
                              end)) in H.
    unfold invert_img, amap, aget in H. cbn [cells map nth_error] in H.
    match type of H with
    | ?l = ?r => assert (PrimFloat.eqb l r = true) as Bad
          by (rewrite H; reflexivity)
    end.
    vm_compute in Bad. discriminate.
Qed.

(** The default pipeline on the dark block: scale, recolor, rotate by 0
    degrees, invert.  The stages return, so the run returns a canvas. *)
Lemma transform_rotating_returns_canvas_witness :
  exists o s',
    random_transform (C := Sim.collaborators) (U8 Sim.dark_block)
                     0.2 0.5 1 1 1 1 1 5
                     [128; 0; 0; 0; 0; 0; 128; 128; 0; 128; 0]%nat
    = Ok (U8 o, s')
    /\ wf_u8 o /\ nrows o = 6%nat /\ ncols o = 6%nat.
Proof.
  set (tape := [128; 0; 0; 0; 0; 0; 128; 128; 0; 128; 0]%nat).
  assert (PrimFloat.ltb (fst (@uniform Sim.collaborators 0 1 tape)) 0.2
          = false) as Hgate by (vm_compute; reflexivity).
  destruct (gated_stages (C := Sim.collaborators) (U8 Sim.dark_block)
              1 1 1 1 1 5 (snd (@uniform Sim.collaborators 0 1 tape)))
    as [[img_trf s4]|e] eqn:Hstages; [|vm_compute in Hstages; discriminate].
  destruct (proj2 (proj2 (transform_rotating_returns_canvas
                            (C := Sim.collaborators) (COk := sim_contract)
                            Sim.dark_block 0.2 0.5 1 1 1 1 5 tape
                            sim_dark_block_wf))
              img_trf s4 Hgate Hstages) as (o & Hrun & Hwf & Eh & Ew).
  exists o, (snd (@uniform Sim.collaborators 0 1 s4)). auto.
Defined.

(** Closed gates: five numbers are read, the sixth stays on the tape. *)
Lemma transform_with_closed_gates_witness :
  random_transform (C := Sim.collaborators) (U8 Sim.one_pixel)
                   0 0.5 0 0.7 1.43 0 0 5 [1; 2; 3; 4; 200; 9]%nat
  = Ok (snap_below_55 (U8 Sim.one_pixel), [9%nat]).
Proof.
  exact (transform_with_closed_gates (C := Sim.collaborators)
           (COk := sim_contract) (U8 Sim.one_pixel) 0.5 0.7 1.43 5
           [1; 2; 3; 4; 200; 9]%nat).
Defined.

(** One bright pixel through the default pipeline. *)
Lemma transform_divides_by_zero_witness :
  random_transform (C := Sim.collaborators) (U8 Sim.one_pixel)
                   0 0.5 1 0.7 1.43 1 1 5 [0; 0]%nat
  = Raise ZeroDivisionError.
Proof.
  apply (transform_divides_by_zero (C := Sim.collaborators)
           (COk := sim_contract) (U8 Sim.one_pixel) 0.5 0.7 1.43 1 1 5
           [0; 0]%nat 1 1 1 1);
    try (vm_compute; reflexivity).
  left. reflexivity.
Defined.

Section Rotate.
Context {C : Collaborators}.

(** ** random_rotate *)

(** X15. [random_rotate] reads one normal deviate, rotates by
    [angle_std] times that deviate, and resizes the rotated image to the
    height and width of its input: whatever the element type of the input,
    the result is a well-formed 8-bit array of that size; and it returns
    whenever the two collaborators do. *)
Theorem random_rotate_spec {COk : CollaboratorsOk C} (img : ndarray)
    (angle_std : float) (s : rng) :
  let angle := PrimFloat.mul angle_std (fst (randn s)) in
  (forall out s',
     random_rotate img angle_std s = Ok (out, s') ->
     exists rotated r,
       ndimage_rotate img angle = Ok rotated
       /\ imresize rotated (ToShape (height img) (width img)) = Ok r
       /\ out = U8 r /\ s' = snd (randn s)
       /\ wf_u8 r /\ nrows r = height img /\ ncols r = width img)
  /\ (forall rotated r,
        ndimage_rotate img angle = Ok rotated ->
        imresize rotated (ToShape (height img) (width img)) = Ok r ->
        random_rotate img angle_std s = Ok (U8 r, snd (randn s))).
Proof.
  intros angle. split.
  - intros out s' H. unfold random_rotate in H.
    apply bind_ok in H. destruct H as (z & s1 & Hz & H). apply draw_ok in Hz.
    apply bind_ok in H. destruct H as (rotated & s2 & Hrot & H). run_inv Hrot.
    apply bind_ok in H. destruct H as (r & s3 & Hres & H). run_inv Hres.
    apply ret_ok in H. destruct H as [-> ->].
    exists rotated, r. subst angle. rewrite Hz. cbn [fst snd].
    split; [exact Hrot|]. split; [exact Hres|]. split; [reflexivity|].
    split; [reflexivity|]. split; [eapply imresize_wf; eassumption|].
    eapply imresize_to_shape. eassumption.
  - intros rotated r Hrot Hres. subst angle.
    unfold random_rotate, bind, draw, lift, ret.
    destruct (randn s) as [z s1]. cbn [fst snd] in *.
    now rewrite Hrot, Hres.
Qed.

End Rotate.

Lemma random_rotate_spec_witness :
  exists r,
    random_rotate (C := Sim.collaborators) (U8 Sim.dark_block) 5 [128; 3]%nat
    = Ok (U8 r, [3%nat])
    /\ wf_u8 r.
Proof.
  destruct (random_rotate (C := Sim.collaborators) (U8 Sim.dark_block) 5
              [128; 3]%nat) as [[out s']|e] eqn:Hrun;
    [|vm_compute in Hrun; discriminate].
  destruct (proj1 (random_rotate_spec (C := Sim.collaborators)
                     (COk := sim_contract) (U8 Sim.dark_block) 5%float
                     [128; 3]%nat) out s' Hrun)
    as (rotated & r & _ & _ & -> & -> & Hwf & _).
  exists r. split; [reflexivity|exact Hwf].
Defined.
